(** * asset-graph: an in-memory property graph (package [assets], graph.go)

    A shallow embedding of the graph store and of its connection finder,
    followed by the properties of the store that the specification states.

    The store is modelled sequentially: the [sync.RWMutex] embedded in
    [Graph] serialises the critical sections and carries no data, so it has
    no counterpart here.  Go maps are [gmap]s keyed by [string]; a
    [map[string]struct{}] used as a set is a [gset string]. *)

From Stdlib Require Import Strings.Byte.
From stdpp Require Import gmap strings list fin_maps.

#[local] Set Warnings "-clear-no-such-hyp".

Open Scope string_scope.
Open Scope list_scope.

(** ** Errors

    [errors.New] makes a leaf error, [fmt.Errorf] with a [%w] verb makes an
    error that carries its rendered text and wraps another one. *)

Inductive error : Type :=
| errors_New (text : string)
| fmt_Errorf (text : string) (wrapped : error).

Definition Error (e : error) : string :=
  match e with
  | errors_New text => text
  | fmt_Errorf text _ => text
  end.

Definition Unwrap (e : error) : option error :=
  match e with
  | errors_New _ => None
  | fmt_Errorf _ wrapped => Some wrapped
  end.

#[global] Instance error_eq_dec : EqDecision error.
Proof. solve_decision. Defined.

(** [errors.Is]: walk the chain of wrapped errors looking for [target]. *)
Fixpoint errors_Is (e target : error) : bool :=
  if decide (e = target) then true
  else match e with
       | errors_New _ => false
       | fmt_Errorf _ wrapped => errors_Is wrapped target
       end.

Definition ErrNotFound : error :=
  errors_New "could not find an element matching the request".

(** ** Nodes and relationships *)

(** Modelled from the spec: the declaration of [Node] is not part of
    graph.go.  graph.go reads the unexported field [id], the exported field
    [Body] and the getters [GetID], [GetName] and [GetLabel]; section 3 of
    the specification gives a node an identity, a name, a label and an
    opaque byte payload. *)
Record Node : Type := mkNode {
  id : string;
  name : string;
  label : string;
  Body : list byte;
}.

Definition GetID (n : Node) : string := id n.
Definition GetName (n : Node) : string := name n.
Definition GetLabel (n : Node) : string := label n.

(** The Go zero value [Node{}]. *)
Definition Node_zero : Node := mkNode "" "" "" [].

(** Modelled from the spec: the declaration of [Relationship] is not part of
    graph.go.  graph.go reads the fields [ID], [From], [To] and [Label];
    section 3 of the specification adds the snapshot of the name and label
    of both endpoints taken when the relationship is created. *)
Record Relationship : Type := mkRelationship {
  ID : string;
  From : string;
  To : string;
  Label : string;
  FromName : string;
  FromLabel : string;
  ToName : string;
  ToLabel : string;
}.

(** The Go zero value [Relationship{}]. *)
Definition Relationship_zero : Relationship :=
  mkRelationship "" "" "" "" "" "" "" "".

#[global] Instance byte_eq_dec' : EqDecision byte := Byte.byte_eq_dec.
#[global] Instance Node_eq_dec : EqDecision Node.
Proof. solve_decision. Defined.
#[global] Instance Relationship_eq_dec : EqDecision Relationship.
Proof. solve_decision. Defined.

(** Modelled from the spec: [newNode] is not part of graph.go.  It asks the
    identity generator of section 4.1 for an identity and builds the node
    from it and from the caller's name, label and body.  The generator draws
    from a process-wide random source; the identity it returns is the
    argument [uid] here, so that every outcome of the generator is covered. *)
Definition newNode (uid : string) (name label : string) (body : list byte) : Node :=
  mkNode uid name label body.

(** Modelled from the spec: [newRelationship] is not part of graph.go.  It
    records the identities of the two endpoints, the label, and the
    snapshot of the endpoints' names and labels, under a generated identity
    (the argument [uid], as for [newNode]). *)
Definition newRelationship (uid : string) (from to : Node) (label : string) : Relationship :=
  mkRelationship uid (GetID from) (GetID to) label
    (GetName from) (GetLabel from) (GetName to) (GetLabel to).

(** ** Filters *)

Definition FilterNodes : Type := Node → bool.

(** The loop of [FilterNodesByLabel] and [FilterNodesByName]: return [true]
    at the first element equal to [x], [false] when the range is over. *)
Fixpoint anyEqual (x : string) (xs : list string) : bool :=
  match xs with
  | [] => false
  | y :: ys => if String.eqb x y then true else anyEqual x ys
  end.

Definition FilterNodesByLabel (labels : list string) : FilterNodes :=
  λ node, anyEqual (GetLabel node) labels.

Definition FilterNodesByName (names : list string) : FilterNodes :=
  λ node, anyEqual (GetName node) names.

Definition FilterRelationship : Type := Relationship → bool.

Definition FilterRelByLabel (label : string) : FilterRelationship :=
  λ rel, String.eqb (Label rel) label.

Definition FilterRelByTo (toID : string) : FilterRelationship :=
  λ rel, String.eqb (To rel) toID.

Definition FilterRelByFrom (fromID : string) : FilterRelationship :=
  λ rel, String.eqb (From rel) fromID.

(** The inner loop of [ListNodes] and [ListRelationships]: [matches] starts
    [true] and the first failing clause sets it to [false] and breaks. *)
Fixpoint matchesAll {A : Type} (where_ : list (A → bool)) (item : A) : bool :=
  match where_ with
  | [] => true
  | clause :: rest => if clause item then matchesAll rest item else false
  end.

(** ** The graph store *)

Record Graph : Type := mkGraph {
  nodes : gmap string Node;
  relationships : gmap string Relationship;
}.

Definition NewGraph : Graph := mkGraph ∅ ∅.

Definition InsertNode (g : Graph) (uid : string) (name label : string)
    (body : list byte) : Graph * Node :=
  let node := newNode uid name label body in
  (mkGraph (<[id node := node]> (nodes g)) (relationships g), node).

Definition GetNodeByID (g : Graph) (id : string) : Node * option error :=
  match nodes g !! id with
  | None =>
      (Node_zero,
       Some (fmt_Errorf (Error ErrNotFound +:+ "; node with id '" +:+ id +:+ "'")
                        ErrNotFound))
  | Some item => (item, None)
  end.

Definition UpdateNode (g : Graph) (nodeID : string) (body : list byte)
    : Graph * (Node * option error) :=
  match nodes g !! nodeID with
  | None =>
      (g, (Node_zero,
           Some (fmt_Errorf (Error ErrNotFound +:+ "; node with id '" +:+ nodeID +:+ "'")
                            ErrNotFound)))
  | Some node =>
      let node := mkNode (id node) (name node) (label node) body in
      (mkGraph (<[id node := node]> (nodes g)) (relationships g), (node, None))
  end.

Definition DeleteNode (g : Graph) (nodeID : string) : Graph * option error :=
  match nodes g !! nodeID with
  | None =>
      (g, Some (fmt_Errorf (Error ErrNotFound +:+ "; node with id '" +:+ nodeID +:+ "'")
                           ErrNotFound))
  | Some node => (mkGraph (delete (id node) (nodes g)) (relationships g), None)
  end.

(** [AddRelationship] looks both endpoints up in the store by the identity
    of the caller's values and builds the relationship from what the store
    returned.  [uid] is the identity [newRelationship] draws. *)
Definition AddRelationship (g : Graph) (uid : string) (from to : Node)
    (label : string) : Graph * (Relationship * option error) :=
  match GetNodeByID g (GetID from) with
  | (_, Some err) =>
      (g, (Relationship_zero,
           Some (fmt_Errorf ("getNodeByID " +:+ GetID from +:+ "; " +:+ Error err) err)))
  | (fromNode, None) =>
      match GetNodeByID g (GetID to) with
      | (_, Some err) =>
          (g, (Relationship_zero,
               Some (fmt_Errorf ("getNodeByID " +:+ GetID to +:+ "; " +:+ Error err) err)))
      | (toNode, None) =>
          let rel := newRelationship uid fromNode toNode label in
          (mkGraph (nodes g) (<[ID rel := rel]> (relationships g)), (rel, None))
      end
  end.

Definition GetRelationshipByID (g : Graph) (id : string)
    : Relationship * option error :=
  match relationships g !! id with
  | None =>
      (Relationship_zero,
       Some (fmt_Errorf (Error ErrNotFound +:+ "; relationship with id '" +:+ id +:+ "'")
                        ErrNotFound))
  | Some item => (item, None)
  end.

(** ** The identity generator *)

(** Modelled from the spec: the identity generator is not part of graph.go.
    Section 4.1 of the specification asks for an identifier that never
    collides with any other identifier the generator has produced, from a
    process-wide source, total and infallible.  A generator is modelled as
    any function from the set of the identities produced so far to an
    identity that is not among them; the set is the state of the source. *)
Record IdentityGenerator : Type := mkIdentityGenerator {
  generate : gset string → string;
  generate_fresh : ∀ issued : gset string, generate issued ∉ issued;
}.

(** One call of the generator: the identity and the new state. *)
Definition newIdentity (G : IdentityGenerator) (issued : gset string)
    : string * gset string :=
  (generate G issued, {[generate G issued]} ∪ issued).

(** [InsertNode] with the identity that [newNode] draws from the
    generator. *)
Definition InsertNode_gen (G : IdentityGenerator) (issued : gset string)
    (g : Graph) (name label : string) (body : list byte)
    : gset string * (Graph * Node) :=
  let '(uid, issued') := newIdentity G issued in
  (issued', InsertNode g uid name label body).

(** [AddRelationship] with the identity that [newRelationship] draws from
    the generator.  [newRelationship] is called after both lookups have
    succeeded: a call that fails does not reach the generator, and what it
    returns does not depend on an identity. *)
Definition AddRelationship_gen (G : IdentityGenerator) (issued : gset string)
    (g : Graph) (from to : Node) (label : string)
    : gset string * (Graph * (Relationship * option error)) :=
  let '(uid, issued') := newIdentity G issued in
  let result := AddRelationship g uid from to label in
  match result.2.2 with
  | Some _ => (issued, result)
  | None => (issued', result)
  end.

(** Every identity under which the store holds an entry has been produced
    by the generator. *)
Definition identities_issued (issued : gset string) (g : Graph) : Prop :=
  dom (nodes g) ⊆ issued ∧ dom (relationships g) ⊆ issued.

(** The states of a process that uses one store: the generator may have
    produced identities before the store was made, and every insertion
    draws its identity from it. *)
Inductive running (G : IdentityGenerator) : gset string → Graph → Prop :=
| running_NewGraph issued : running G issued NewGraph
| running_InsertNode issued g name label body :
    running G issued g →
    running G (InsertNode_gen G issued g name label body).1
              (InsertNode_gen G issued g name label body).2.1
| running_UpdateNode issued g nodeID body :
    running G issued g → running G issued (UpdateNode g nodeID body).1
| running_DeleteNode issued g nodeID :
    running G issued g → running G issued (DeleteNode g nodeID).1
| running_AddRelationship issued g from to label :
    running G issued g →
    running G (AddRelationship_gen G issued g from to label).1
              (AddRelationship_gen G issued g from to label).2.1.

(** A generator: stdpp's choice of a string outside of a finite set. *)
Definition fresh_generator : IdentityGenerator :=
  mkIdentityGenerator fresh is_fresh.

(** ** Iterating over a Go map

    [for _, item := range m] visits every entry of [m] once, in an order
    the language leaves unspecified.  The order is the parameter [range] of
    the functions below; the properties are proved for every [range] that
    enumerates the entries of the map (hypothesis [range_perm] of section
    [Properties]).  [map_to_list] is one such order. *)

Definition range_order : Type := ∀ A : Type, gmap string A → list (string * A).

(** ** Chains *)

(** [ChainLink] is a linked list item; [next] is a pointer that may be nil. *)
#[warnings="-register-all"]
Inductive ChainLink : Type :=
| mkChainLink (node : Node) (rel : Relationship) (next : option ChainLink).

Definition node (c : ChainLink) : Node :=
  match c with mkChainLink node _ _ => node end.
Definition rel (c : ChainLink) : Relationship :=
  match c with mkChainLink _ rel _ => rel end.
Definition next (c : ChainLink) : option ChainLink :=
  match c with mkChainLink _ _ next => next end.

(** [copyMap] builds a new set and adds every key of [m] to it. *)
Definition copyMap (m : gset string) : gset string :=
  foldl (λ n k, {[k]} ∪ n) ∅ (elements m).

Section Store.
Variable range : range_order.

Definition ListNodes (g : Graph) (where_ : list FilterNodes) : list Node :=
  foldl (λ matchingNodes kv,
           let item := kv.2 in
           if matchesAll where_ item then matchingNodes ++ [item]
           else matchingNodes)
        [] (range Node (nodes g)).

Definition ListRelationships (g : Graph) (filters : list FilterRelationship)
    : list Relationship :=
  foldl (λ matchingRelationships kv,
           let item := kv.2 in
           if matchesAll filters item then matchingRelationships ++ [item]
           else matchingRelationships)
        [] (range Relationship (relationships g)).

(** [listConnections].  The recursion of the source is bounded here by
    [fuel], the number of nested calls allowed: [None] means that the
    bound was hit, [Some chains] that the call returned [chains].  The
    caller's map [visited] is updated in place by the source before the
    loop and only read afterwards; every recursive call receives its own
    copy [toCheck], so sets passed by value behave the same. *)
Fixpoint listConnections (fuel : nat) (g : Graph) (from to : Node)
    (visited : gset string) : option (list ChainLink) :=
  match fuel with
  | O => None
  | S fuel =>
      let visited := {[id from]} ∪ visited in
      foldl (λ chains rel,
               chains ← chains;
               let toCheck := copyMap visited in
               if decide (To rel ∈ visited) then Some chains
               else
                 let toCheck := {[To rel]} ∪ toCheck in
                 if String.eqb (To rel) (id to) then
                   Some (chains ++
                         [mkChainLink from rel
                            (Some (mkChainLink to Relationship_zero None))])
                 else
                   match nodes g !! To rel with
                   | None => Some chains
                   | Some next =>
                       connections ← listConnections fuel g next to toCheck;
                       Some (foldl (λ chains cons,
                                      chains ++ [mkChainLink from rel (Some cons)])
                                   chains connections)
                   end)
            (Some [])
            (ListRelationships g [FilterRelByFrom (GetID from)])
  end.

(** [ListConnections] starts the search with an empty visited map.  One
    more nested call than there are stored nodes is always enough (see the
    termination property below), so the bound is never hit. *)
Definition ListConnections (g : Graph) (from to : Node) : list ChainLink :=
  default [] (listConnections (S (size (nodes g))) g from to ∅).

End Store.

(** ** Vocabulary of the properties *)

(** Every entry of both maps is stored under its own identity.  The store
    writes [g.nodes[node.id] = node] and [g.relationships[rel.ID] = rel]
    and nothing else, so every state the operations can produce satisfies
    this ([reachable_inv] below). *)
Definition Graph_inv (g : Graph) : Prop :=
  (∀ k n, nodes g !! k = Some n → id n = k) ∧
  (∀ k r, relationships g !! k = Some r → ID r = k).

(** The states of a store: a new graph, and what the mutating operations
    make of a state, whatever identities the generator draws. *)
Inductive reachable : Graph → Prop :=
| reachable_NewGraph : reachable NewGraph
| reachable_InsertNode g uid name label body :
    reachable g → reachable (InsertNode g uid name label body).1
| reachable_UpdateNode g nodeID body :
    reachable g → reachable (UpdateNode g nodeID body).1
| reachable_DeleteNode g nodeID :
    reachable g → reachable (DeleteNode g nodeID).1
| reachable_AddRelationship g uid from to label :
    reachable g → reachable (AddRelationship g uid from to label).1.

(** [r] is one of the relationships of the store. *)
Definition stored (g : Graph) (r : Relationship) : Prop :=
  relationships g !! ID r = Some r.

(** [p] is a non-empty sequence of stored relationships leading from the
    identity [src] to the identity [dst], each starting where the previous
    one ends. *)
Fixpoint directed_path (g : Graph) (src : string) (p : list Relationship)
    (dst : string) : Prop :=
  match p with
  | [] => False
  | r :: p' =>
      stored g r ∧ From r = src ∧
      match p' with
      | [] => To r = dst
      | _ :: _ => directed_path g (To r) p' dst
      end
  end.

(** The identities a path enters strictly before its end. *)
Fixpoint intermediate (p : list Relationship) : list string :=
  match p with
  | [] => []
  | r :: p' =>
      match p' with
      | [] => []
      | _ :: _ => To r :: intermediate p'
      end
  end.

(** A simple path visits no identity twice, its start included; the
    connection finder follows it only through identities that resolve to
    stored nodes. *)
Definition simple_path (g : Graph) (src : string) (p : list Relationship)
    (dst : string) : Prop :=
  directed_path g src p dst ∧
  NoDup (src :: (To <$> p)) ∧
  Forall (λ k, is_Some (nodes g !! k)) (intermediate p).

(** The nodes of a chain and the relationships between them, in order.
    The last link has no successor and its [rel] is the zero value: it
    contributes its node only. *)
Fixpoint chain_nodes (c : ChainLink) : list Node :=
  match c with
  | mkChainLink n _ nxt =>
      n :: match nxt with
           | None => []
           | Some c' => chain_nodes c'
           end
  end.

Fixpoint chain_rels (c : ChainLink) : list Relationship :=
  match c with
  | mkChainLink _ r nxt =>
      match nxt with
      | None => []
      | Some c' => r :: chain_rels c'
      end
  end.

(** Every link but the last holds the relationship that leaves its node and
    enters the node of the next link. *)
Fixpoint linked (c : ChainLink) : Prop :=
  match c with
  | mkChainLink n r nxt =>
      match nxt with
      | None => True
      | Some c' => From r = id n ∧ To r = id (node c') ∧ linked c'
      end
  end.

(** The chain that walks the path [p] from the caller's value [cur] to the
    caller's value [to] through the stored nodes in between. *)
Fixpoint chain_of (g : Graph) (cur to : Node) (p : list Relationship)
    : option ChainLink :=
  match p with
  | [] => None
  | r :: p' =>
      match p' with
      | [] => Some (mkChainLink cur r (Some (mkChainLink to Relationship_zero None)))
      | _ :: _ =>
          nxt ← nodes g !! To r;
          c ← chain_of g nxt to p';
          Some (mkChainLink cur r (Some c))
      end
  end.

Section Unbounded.
Variable range : range_order.

(** What [listConnections] returns when [fuel] does not run out, as a
    list: each relationship leaving [from] contributes the chains that
    start with it. *)
Fixpoint connections_from (fuel : nat) (g : Graph) (from to : Node)
    (visited : gset string) : list ChainLink :=
  match fuel with
  | O => []
  | S fuel =>
      let visited := {[id from]} ∪ visited in
      r ← ListRelationships range g [FilterRelByFrom (GetID from)];
      if decide (To r ∈ visited) then []
      else if String.eqb (To r) (id to) then
        [mkChainLink from r (Some (mkChainLink to Relationship_zero None))]
      else
        match nodes g !! To r with
        | None => []
        | Some nxt =>
            (λ cons, mkChainLink from r (Some cons)) <$>
              connections_from fuel g nxt to ({[To r]} ∪ visited)
        end
  end.
End Unbounded.

(** ** Example stores *)

(** The order in which stdpp lists the entries of a map. *)
Definition range_map_to_list : range_order :=
  λ A m, map_to_list m.

Definition bobita : Node := newNode "n1" "Bobita" "puppy" [x7b; x31; x7d].
Definition azor : Node := newNode "n2" "Azor" "puppy" [x7b; x32; x7d].
Definition smaug : Node := newNode "n3" "Smaug" "dragon" [x7b; x33; x7d].

(** The store of [Test_Graph_ListConnections]: three nodes, Bobita to Azor,
    Bobita to Smaug, Azor to Smaug, and two parallel relationships from
    Azor back to Bobita. *)
Definition example_graph : Graph :=
  let g := (InsertNode NewGraph "n1" "Bobita" "puppy" [x7b; x31; x7d]).1 in
  let g := (InsertNode g "n2" "Azor" "puppy" [x7b; x32; x7d]).1 in
  let g := (InsertNode g "n3" "Smaug" "dragon" [x7b; x33; x7d]).1 in
  let g := (AddRelationship g "r1" bobita azor "friends").1 in
  let g := (AddRelationship g "r2" bobita smaug "enemies").1 in
  let g := (AddRelationship g "r3" azor smaug "enemies").1 in
  let g := (AddRelationship g "r4" azor bobita "friends").1 in
  (AddRelationship g "r5" azor bobita "friends").1.

(** A cycle Bobita, Azor, Smaug, Bobita and a relationship from Bobita to
    itself. *)
Definition cycle_graph : Graph :=
  let g := (InsertNode NewGraph "n1" "Bobita" "puppy" [x7b; x31; x7d]).1 in
  let g := (InsertNode g "n2" "Azor" "puppy" [x7b; x32; x7d]).1 in
  let g := (InsertNode g "n3" "Smaug" "dragon" [x7b; x33; x7d]).1 in
  let g := (AddRelationship g "r1" bobita azor "friends").1 in
  let g := (AddRelationship g "r2" azor smaug "enemies").1 in
  let g := (AddRelationship g "r3" smaug bobita "enemies").1 in
  (AddRelationship g "r4" bobita bobita "self").1.

(** Two puppies and no relationship. *)
Definition puppies_graph : Graph :=
  let g := (InsertNode NewGraph "n1" "Bobita" "puppy" [x7b; x31; x7d]).1 in
  (InsertNode g "n2" "Azor" "puppy" [x7b; x32; x7d]).1.

(** Bobita befriends Azor. *)
Definition friends_graph : Graph :=
  (AddRelationship puppies_graph "r1" bobita azor "friends").1.

(** [Test_Graph_AddRelationship] as a process that starts with a generator
    that has produced nothing: two nodes, then two relationships between
    them. *)
Definition test_bobita : gset string * (Graph * Node) :=
  InsertNode_gen fresh_generator ∅ NewGraph "Bobita" "puppy" [x7b; x31; x7d].
Definition test_azor : gset string * (Graph * Node) :=
  InsertNode_gen fresh_generator test_bobita.1 test_bobita.2.1
    "Azor" "puppy" [x7b; x32; x7d].
Definition test_friends : gset string * (Graph * (Relationship * option error)) :=
  AddRelationship_gen fresh_generator test_azor.1 test_azor.2.1
    test_bobita.2.2 test_azor.2.2 "friends".
Definition test_competitors
    : gset string * (Graph * (Relationship * option error)) :=
  AddRelationship_gen fresh_generator test_friends.1 test_friends.2.1
    test_bobita.2.2 test_azor.2.2 "competitors".

(** The identities the generator has produced when [friends_graph] is
    reached. *)
Definition friends_issued : gset string := {["n1"; "n2"; "r1"]}.

(** Then Azor is deleted: the relationship stays. *)
Definition dangling_graph : Graph :=
  (DeleteNode friends_graph "n2").1.

Definition bobita_friends_azor : Relationship :=
  newRelationship "r1" bobita azor "friends".

(** A value a caller made up under the identity of the deleted node. *)
Definition ghost : Node := mkNode "n2" "Ghost" "ghost" [].

(** The two chains from Bobita to Smaug in [example_graph]. *)
Definition chain_through_azor : ChainLink :=
  mkChainLink bobita (newRelationship "r1" bobita azor "friends")
    (Some (mkChainLink azor (newRelationship "r3" azor smaug "enemies")
       (Some (mkChainLink smaug Relationship_zero None)))).

Definition direct_chain : ChainLink :=
  mkChainLink bobita (newRelationship "r2" bobita smaug "enemies")
    (Some (mkChainLink smaug Relationship_zero None)).

(** The chain from Bobita to Azor in [friends_graph]. *)
Definition friends_chain : ChainLink :=
  mkChainLink bobita bobita_friends_azor
    (Some (mkChainLink azor Relationship_zero None)).

(** ** Rendering a chain *)

(** The relationship held by the last link of a chain. *)
Fixpoint last_rel (c : ChainLink) : Relationship :=
  match c with
  | mkChainLink _ r nxt =>
      match nxt with
      | None => r
      | Some c' => last_rel c'
      end
  end.

Section Rendering.
(** [Node.String] and [Relationship.String] are not part of graph.go: the
    rendering of a node and of a relationship are parameters of the
    rendering of a chain. *)
Variable Node_String : Node → string.
Variable Relationship_String : Relationship → string.

(** The method [String] of [ChainLink].  [sb] is the [strings.Builder];
    [fmt.Sprintf("->%s", x)] is the arrow followed by [x]. *)
Fixpoint ChainLink_String (c : ChainLink) : string :=
  match c with
  | mkChainLink node rel next =>
      let sb := "" in
      let sb :=
        if negb (String.eqb (GetID node) "") then sb +:+ Node_String node
        else sb in
      let sb :=
        if negb (String.eqb (ID rel) "") then
          sb +:+ ("->" +:+ Relationship_String rel)
        else sb in
      let sb :=
        match next with
        | Some c' => sb +:+ ("->" +:+ ChainLink_String c')
        | None => sb
        end in
      sb
  end.

(** Nodes and relationships in turn, joined by arrows. *)
Fixpoint arrows (ns : list Node) (rs : list Relationship) : string :=
  match ns with
  | [] => ""
  | n :: ns' =>
      match rs with
      | [] => Node_String n
      | r :: rs' =>
          Node_String n +:+ "->" +:+ Relationship_String r +:+ "->" +:+
          arrows ns' rs'
      end
  end.
End Rendering.

(** Modelled from the spec: [Node.String] and [Relationship.String] are not
    part of graph.go.  These are the renderings that the strings expected
    by [Test_Graph_ListConnections] show, used for the examples only. *)
Definition Asset_String (n : Node) : string :=
  "{Asset:" +:+ GetName n +:+ "}".
Definition rel_String (r : Relationship) : string :=
  "{rel:" +:+ FromName r +:+ "-" +:+ Label r +:+ "-" +:+ ToName r +:+ "}".

(** * Properties *)

(** ** Errors *)

Lemma errors_Is_refl e : errors_Is e e = true.
Proof. destruct e; simpl; by rewrite decide_True. Qed.

Lemma errors_Is_wrap text e target :
  errors_Is e target = true → errors_Is (fmt_Errorf text e) target = true.
Proof. intros H. simpl. rewrite H. by case_decide. Qed.

(** ** The invariant of the store *)

Lemma NewGraph_inv : Graph_inv NewGraph.
Proof. split; intros k x; simpl; by rewrite lookup_empty. Qed.

Lemma InsertNode_inv g uid name label body :
  Graph_inv g → Graph_inv (InsertNode g uid name label body).1.
Proof.
  intros [Hn Hr]. split; simpl; [|done].
  intros k n. rewrite lookup_insert. case_decide; [|by apply Hn].
  by intros [= <-].
Qed.

Lemma UpdateNode_inv g nodeID body :
  Graph_inv g → Graph_inv (UpdateNode g nodeID body).1.
Proof.
  intros [Hn Hr]. unfold UpdateNode.
  destruct (nodes g !! nodeID) as [n0|] eqn:E; [|done].
  split; simpl; [|done].
  intros k n. rewrite lookup_insert. case_decide; [|by apply Hn].
  by intros [= <-].
Qed.

Lemma DeleteNode_inv g nodeID :
  Graph_inv g → Graph_inv (DeleteNode g nodeID).1.
Proof.
  intros [Hn Hr]. unfold DeleteNode.
  destruct (nodes g !! nodeID) as [n0|] eqn:E; [|done].
  split; simpl; [|done].
  intros k n. rewrite lookup_delete. case_decide; [done|by apply Hn].
Qed.

Lemma AddRelationship_inv g uid from to label :
  Graph_inv g → Graph_inv (AddRelationship g uid from to label).1.
Proof.
  intros [Hn Hr]. unfold AddRelationship, GetNodeByID.
  destruct (nodes g !! GetID from) as [fromNode|]; [|done].
  destruct (nodes g !! GetID to) as [toNode|]; [|done].
  split; simpl; [done|].
  intros k r. rewrite lookup_insert. case_decide; [|by apply Hr].
  by intros [= <-].
Qed.

Lemma reachable_inv g : reachable g → Graph_inv g.
Proof.
  induction 1;
    eauto using NewGraph_inv, InsertNode_inv, UpdateNode_inv, DeleteNode_inv,
      AddRelationship_inv.
Qed.

(** ** The identities of the store come from the generator *)

Lemma running_reachable G issued g : running G issued g → reachable g.
Proof.
  induction 1 as [issued|issued g name label body _ IH|issued g nodeID body _ IH
                 |issued g nodeID _ IH|issued g from to label _ IH].
  - apply reachable_NewGraph.
  - by apply reachable_InsertNode.
  - by apply reachable_UpdateNode.
  - by apply reachable_DeleteNode.
  - unfold AddRelationship_gen, newIdentity.
    destruct (AddRelationship g (generate G issued) from to label).2.2 eqn:E;
      simpl; by apply reachable_AddRelationship.
Qed.

Lemma running_identities_issued G issued g :
  running G issued g → identities_issued issued g.
Proof.
  induction 1 as [issued|issued g name label body _ [IHn IHr]
                 |issued g nodeID body Hrun [IHn IHr]
                 |issued g nodeID _ [IHn IHr]
                 |issued g from to label _ [IHn IHr]].
  - split; simpl; rewrite dom_empty_L; set_solver.
  - split; simpl.
    + rewrite dom_insert_L. set_solver.
    + set_solver.
  - unfold UpdateNode. destruct (nodes g !! nodeID) as [n|] eqn:E; [|done].
    split; simpl; [|done]. rewrite dom_insert_L.
    assert (id n ∈ dom (nodes g)); [|set_solver].
    apply elem_of_dom.
    destruct (reachable_inv g (running_reachable _ _ _ Hrun)) as [Hn _].
    rewrite (Hn _ _ E). by eexists.
  - unfold DeleteNode. destruct (nodes g !! nodeID) as [n|]; [|done].
    split; simpl; [|done]. rewrite dom_delete_L. set_solver.
  - unfold AddRelationship_gen, newIdentity, AddRelationship, GetNodeByID.
    destruct (nodes g !! GetID from) as [fromNode|]; [|done].
    destruct (nodes g !! GetID to) as [toNode|]; [|done].
    split; simpl.
    + set_solver.
    + rewrite dom_insert_L. set_solver.
Qed.

(** ** Loops *)

Lemma copyMap_id (m : gset string) : copyMap m = m.
Proof.
  unfold copyMap.
  assert (∀ (l : list string) (acc : gset string),
    foldl (λ n k, {[k]} ∪ n) acc l = list_to_set l ∪ acc) as Hfold.
  { induction l as [|k l IH]; intros acc; simpl; [set_solver|].
    rewrite IH. set_solver. }
  rewrite Hfold, list_to_set_elements_L. set_solver.
Qed.

Lemma matchesAll_true {A} (where_ : list (A → bool)) (item : A) :
  matchesAll where_ item = true ↔ ∀ clause, clause ∈ where_ → clause item = true.
Proof.
  induction where_ as [|c rest IH]; simpl.
  - split; [|done]. intros _ clause Hin. by apply elem_of_nil in Hin.
  - destruct (c item) eqn:E.
    + rewrite IH. split.
      * intros H clause [->|Hin]%elem_of_cons; auto.
      * intros H clause Hin. apply H. by right.
    + split; [done|]. intros H. rewrite <- E. apply H. by left.
Qed.

(** The outer loop of [ListNodes] and [ListRelationships] keeps, in the
    order of the iteration, the items that match. *)
Lemma list_loop_filter {A} (f : A → bool) (l : list (string * A)) (init : list A) :
  foldl (λ matching kv,
           let item := kv.2 in
           if f item then matching ++ [item] else matching) init l
  = init ++ filter (λ item, f item = true) l.*2.
Proof.
  revert init. induction l as [|[k x] l IH]; intros init; simpl.
  - by rewrite app_nil_r.
  - rewrite IH. destruct (f x) eqn:E.
    + rewrite filter_cons_True by done. by rewrite <- app_assoc.
    + rewrite filter_cons_False; [done|]. by rewrite E.
Qed.

Lemma append_loop_fmap {A B} (f : A → B) (l : list A) (init : list B) :
  foldl (λ chains cons, chains ++ [f cons]) init l = init ++ (f <$> l).
Proof.
  revert init. induction l as [|x l IH]; intros init; simpl.
  - by rewrite app_nil_r.
  - rewrite IH. by rewrite <- app_assoc.
Qed.

(** A loop that threads an optional accumulator and appends to it at each
    step returns the concatenation of what the steps append. *)
Lemma option_loop_bind {A B} (step : list B → A → option (list B))
    (F : A → list B) (l : list A) (init : list B) :
  (∀ x chains, x ∈ l → step chains x = Some (chains ++ F x)) →
  foldl (λ acc x, chains ← acc; step chains x) (Some init) l
  = Some (init ++ (l ≫= F)).
Proof.
  revert init. induction l as [|x l IH]; intros init Hstep; simpl.
  - by rewrite app_nil_r.
  - rewrite Hstep by (by left). rewrite IH.
    + by rewrite <- app_assoc.
    + intros y chains Hy. apply Hstep. by right.
Qed.

(** ** Paths and their chains *)

(** Adding a stored identity to the visited set leaves fewer stored
    identities outside of it. *)
Lemma unvisited_decreases (g : Graph) (visited : gset string) (from k : string) :
  k ∉ ({[from]} ∪ visited : gset string) →
  is_Some (nodes g !! k) →
  size (dom (nodes g) ∖ ({[k]} ∪ ({[from]} ∪ visited)))
  < size (dom (nodes g) ∖ visited).
Proof.
  intros Hk Hs. apply subset_size.
  apply elem_of_dom in Hs. set_solver.
Qed.

Lemma chain_of_cons_cons g cur to r r' p :
  chain_of g cur to (r :: r' :: p)
  = nxt ← nodes g !! To r;
    c ← chain_of g nxt to (r' :: p);
    Some (mkChainLink cur r (Some c)).
Proof. done. Qed.

Lemma directed_path_nonempty g src p dst : directed_path g src p dst → p ≠ [].
Proof. by destruct p. Qed.

Lemma directed_path_last g src p dst :
  directed_path g src p dst → last (To <$> p) = Some dst.
Proof.
  revert src. induction p as [|r p' IH]; intros src; [done|].
  intros (_ & _ & H). destruct p' as [|r' p'']; [by rewrite <- H|].
  change (To <$> r :: r' :: p'') with (To r :: (To <$> r' :: p'')).
  rewrite last_cons. by rewrite (IH _ H).
Qed.

Lemma directed_path_dst_elem g src p dst :
  directed_path g src p dst → dst ∈ To <$> p.
Proof.
  intros H%directed_path_last. apply last_Some in H as [l' ->].
  apply elem_of_app. right. by left.
Qed.

Lemma chain_of_rels g cur to p c :
  chain_of g cur to p = Some c → chain_rels c = p.
Proof.
  revert cur c. induction p as [|r p' IH]; intros cur c; [done|].
  destruct p' as [|r' p'']; [by intros [= <-]|].
  rewrite chain_of_cons_cons.
  intros (nxt & _ & (c' & Hc' & [= <-])%bind_Some)%bind_Some.
  cbn -[chain_of]. by rewrite (IH _ _ Hc').
Qed.

Lemma chain_of_node g cur to p c :
  chain_of g cur to p = Some c → node c = cur.
Proof.
  destruct p as [|r [|r' p'']]; [done|by intros [= <-]|].
  rewrite chain_of_cons_cons.
  by intros (nxt & _ & (c' & _ & [= <-])%bind_Some)%bind_Some.
Qed.

Lemma chain_of_shape g cur to p c :
  Graph_inv g →
  directed_path g (id cur) p (id to) →
  chain_of g cur to p = Some c →
  linked c ∧
  Forall (stored g) (chain_rels c) ∧
  id <$> chain_nodes c = id cur :: (To <$> p) ∧
  ∃ inner, chain_nodes c = cur :: inner ++ [to] ∧
           Forall (λ n, nodes g !! id n = Some n) inner.
Proof.
  intros [Hn _]. revert cur c. induction p as [|r p' IH]; intros cur c; [done|].
  destruct p' as [|r' p''].
  - intros (Hst & Hfrom & Hto) [= <-]. cbn. rewrite Hto.
    repeat split; auto. by exists [].
  - intros (Hst & Hfrom & Hpath). rewrite chain_of_cons_cons.
    intros (nxt & Hnxt & (c' & Hc' & [= <-])%bind_Some)%bind_Some.
    pose proof (Hn _ _ Hnxt) as Hid.
    rewrite <- Hid in Hpath.
    destruct (IH _ _ Hpath Hc') as (Hl & Hs & Hids & inner & Hnodes & Hinner).
    cbn -[chain_of]. rewrite (chain_of_node _ _ _ _ _ Hc').
    repeat split; auto.
    + rewrite Hids. by rewrite Hid.
    + exists (nxt :: inner). rewrite Hnodes. split; [done|].
      constructor; [by rewrite Hid|done].
Qed.

Lemma simple_path_chain g cur to p :
  Forall (λ k, is_Some (nodes g !! k)) (intermediate p) → p ≠ [] →
  is_Some (chain_of g cur to p).
Proof.
  revert cur. induction p as [|r p' IH]; intros cur Hi Hne; [done|].
  destruct p' as [|r' p'']; [by eexists|].
  cbn [intermediate] in Hi. apply Forall_cons in Hi as [[nxt Hnxt] Hi].
  rewrite chain_of_cons_cons, Hnxt.
  destruct (IH nxt Hi) as [c' Hc']; [done|].
  exists (mkChainLink cur r (Some c')).
  apply bind_Some. exists nxt. split; [done|].
  apply bind_Some. by exists c'.
Qed.

Lemma directed_path_cons g src r p dst :
  p ≠ [] →
  directed_path g src (r :: p) dst ↔
  stored g r ∧ From r = src ∧ directed_path g (To r) p dst.
Proof. by destruct p. Qed.

Lemma intermediate_cons r p : p ≠ [] → intermediate (r :: p) = To r :: intermediate p.
Proof. by destruct p. Qed.

Lemma directed_path_parallel g src pre r1 r2 post dst :
  stored g r2 → From r2 = From r1 → To r2 = To r1 →
  directed_path g src (pre ++ r1 :: post) dst →
  directed_path g src (pre ++ r2 :: post) dst.
Proof.
  intros Hst Hfrom Hto. revert src. induction pre as [|a pre IH]; intros src.
  - cbn. rewrite Hfrom, Hto. tauto.
  - rewrite <- !app_comm_cons.
    rewrite !directed_path_cons by (by destruct pre).
    intros (? & ? & ?). auto.
Qed.

Lemma intermediate_parallel pre r1 r2 post :
  To r2 = To r1 →
  intermediate (pre ++ r2 :: post) = intermediate (pre ++ r1 :: post).
Proof.
  intros Hto. induction pre as [|a pre IH].
  - cbn. by rewrite Hto.
  - rewrite <- !app_comm_cons.
    rewrite !intermediate_cons by (by destruct pre). by rewrite IH.
Qed.

Lemma simple_path_parallel g src pre r1 r2 post dst :
  stored g r2 → From r2 = From r1 → To r2 = To r1 →
  simple_path g src (pre ++ r1 :: post) dst →
  simple_path g src (pre ++ r2 :: post) dst.
Proof.
  intros Hst Hfrom Hto (Hpath & Hnd & Hmid). split_and!.
  - by eapply directed_path_parallel.
  - by rewrite fmap_app, fmap_cons, Hto, <- fmap_cons, <- fmap_app.
  - by rewrite (intermediate_parallel _ r1).
Qed.

Lemma anyEqual_true x xs : anyEqual x xs = true ↔ x ∈ xs.
Proof.
  induction xs as [|y ys IH]; simpl.
  - split; [done|]. by intros ?%elem_of_nil.
  - destruct (String.eqb_spec x y) as [->|Hne].
    + split; [|done]. intros _. by left.
    + rewrite IH. split; [by right|].
      by intros [?|?]%elem_of_cons.
Qed.

Section Properties.
Variable range : range_order.

(** ** Termination of the connection finder *)

Lemma ListNodes_filter g where_ :
  ListNodes range g where_
  = filter (λ item, matchesAll where_ item = true) (range Node (nodes g)).*2.
Proof. unfold ListNodes. by rewrite list_loop_filter. Qed.

Lemma ListRelationships_filter g filters :
  ListRelationships range g filters
  = filter (λ item, matchesAll filters item = true)
      (range Relationship (relationships g)).*2.
Proof. unfold ListRelationships. by rewrite list_loop_filter. Qed.

Lemma listConnections_connections_from fuel g from to visited :
  size (dom (nodes g) ∖ visited) < fuel →
  listConnections range fuel g from to visited
  = Some (connections_from range fuel g from to visited).
Proof.
  revert from visited. induction fuel as [|fuel IH]; intros from visited Hfuel;
    [lia|].
  simpl. erewrite option_loop_bind; [done|].
  intros r chains _. simpl. rewrite copyMap_id.
  case_decide as Hvis; [by rewrite app_nil_r|].
  destruct (String.eqb (To r) (id to)); [done|].
  destruct (nodes g !! To r) as [nxt|] eqn:Hnxt; [|by rewrite app_nil_r].
  rewrite IH.
  - simpl. by rewrite append_loop_fmap.
  - pose proof (unvisited_decreases g visited (id from) (To r) Hvis) as Hlt.
    rewrite Hnxt in Hlt. specialize (Hlt (mk_is_Some _ _ eq_refl)). lia.
Qed.

(** The chains do not depend on how much fuel is left over. *)
Lemma connections_from_fuel fuel1 fuel2 g from to visited :
  size (dom (nodes g) ∖ visited) < fuel1 →
  size (dom (nodes g) ∖ visited) < fuel2 →
  connections_from range fuel1 g from to visited
  = connections_from range fuel2 g from to visited.
Proof.
  revert fuel2 from visited.
  induction fuel1 as [|fuel1 IH]; intros [|fuel2] from visited H1 H2; try lia.
  simpl. apply list_bind_ext; [|done].
  intros r. case_decide as Hvis; [done|].
  destruct (String.eqb (To r) (id to)); [done|].
  destruct (nodes g !! To r) as [nxt|] eqn:Hnxt; [|done].
  pose proof (unvisited_decreases g visited (id from) (To r) Hvis) as Hlt.
  rewrite Hnxt in Hlt. specialize (Hlt (mk_is_Some _ _ eq_refl)).
  f_equal. apply IH; lia.
Qed.

Lemma ListConnections_connections_from g from to :
  ListConnections range g from to
  = connections_from range (S (size (nodes g))) g from to ∅.
Proof.
  unfold ListConnections. rewrite listConnections_connections_from; [done|].
  rewrite difference_empty_L, size_dom. lia.
Qed.

(** What one relationship leaving [from] contributes. *)
Lemma elem_of_connections_from_S fuel g from to visited c :
  c ∈ connections_from range (S fuel) g from to visited ↔
  ∃ r, r ∈ ListRelationships range g [FilterRelByFrom (GetID from)] ∧
       (To r ∉ ({[id from]} ∪ visited : gset string)) ∧
       ((To r = id to ∧
         c = mkChainLink from r (Some (mkChainLink to Relationship_zero None))) ∨
        (To r ≠ id to ∧
         ∃ nxt c', nodes g !! To r = Some nxt ∧
                   c' ∈ connections_from range fuel g nxt to
                          ({[To r]} ∪ ({[id from]} ∪ visited)) ∧
                   c = mkChainLink from r (Some c'))).
Proof.
  cbn [connections_from]. rewrite list_elem_of_bind.
  split.
  - intros (r & Hc & Hr). exists r. split; [done|].
    case_decide as Hvis; [by apply elem_of_nil in Hc|]. split; [done|].
    destruct (String.eqb_spec (To r) (id to)) as [Heq|Hne].
    + left. by apply list_elem_of_singleton in Hc.
    + right. split; [done|].
      destruct (nodes g !! To r) as [nxt|]; [|by apply elem_of_nil in Hc].
      apply list_elem_of_fmap in Hc as (c' & -> & Hc'). by exists nxt, c'.
  - intros (r & Hr & Hvis & Hcase). exists r. split; [|done].
    rewrite decide_False by done.
    destruct Hcase as [[Heq ->]|(Hne & nxt & c' & Hnxt & Hc' & ->)].
    + apply String.eqb_eq in Heq. rewrite Heq. by left.
    + apply String.eqb_neq in Hne. rewrite Hne, Hnxt.
      apply list_elem_of_fmap. by exists c'.
Qed.

(** ** Properties that need the iteration to enumerate the map *)

Hypothesis range_perm :
  ∀ (A : Type) (m : gmap string A), range A m ≡ₚ map_to_list m.

Lemma elem_of_range_snd {A} (m : gmap string A) (x : A) :
  x ∈ (range A m).*2 ↔ ∃ k, m !! k = Some x.
Proof.
  rewrite (range_perm A m). rewrite list_elem_of_fmap. split.
  - intros [[k y] [-> Hin%elem_of_map_to_list]]. by exists k.
  - intros [k Hk]. exists (k, x). split; [done|]. by apply elem_of_map_to_list.
Qed.

Lemma elem_of_ListNodes g where_ n :
  n ∈ ListNodes range g where_ ↔
  (∃ k, nodes g !! k = Some n) ∧ matchesAll where_ n = true.
Proof.
  rewrite ListNodes_filter, list_elem_of_filter, elem_of_range_snd. tauto.
Qed.

Lemma elem_of_ListRelationships g filters r :
  r ∈ ListRelationships range g filters ↔
  (∃ k, relationships g !! k = Some r) ∧ matchesAll filters r = true.
Proof.
  rewrite ListRelationships_filter, list_elem_of_filter, elem_of_range_snd. tauto.
Qed.

Lemma elem_of_ListRelationships_from g from r :
  Graph_inv g →
  r ∈ ListRelationships range g [FilterRelByFrom from] ↔
  stored g r ∧ From r = from.
Proof.
  intros [_ Hr]. rewrite elem_of_ListRelationships. unfold stored. simpl.
  unfold FilterRelByFrom.
  destruct (String.eqb_spec (From r) from) as [->|Hne].
  - split.
    + intros [[k Hk] _]. by rewrite (Hr _ _ Hk).
    + intros [H _]. eauto.
  - split; [by intros [_ ?]|]. intros [_ ?]. done.
Qed.

Lemma NoDup_ListRelationships g filters :
  Graph_inv g → NoDup (ListRelationships range g filters).
Proof.
  intros [_ Hr]. rewrite ListRelationships_filter. apply NoDup_filter.
  rewrite (range_perm _ (relationships g)).
  apply (NoDup_fmap_1 ID). rewrite <- list_fmap_compose.
  assert (ID ∘ snd <$> map_to_list (relationships g)
          = (map_to_list (relationships g)).*1) as ->.
  { apply list_fmap_ext. intros i [k r] Hi. simpl.
    apply Hr. apply elem_of_map_to_list. eapply list_elem_of_lookup_2, Hi. }
  apply NoDup_fst_map_to_list.
Qed.

Lemma elem_of_connections_from fuel g from to visited c :
  Graph_inv g →
  size (dom (nodes g) ∖ visited) < fuel →
  c ∈ connections_from range fuel g from to visited ↔
  ∃ p, directed_path g (id from) p (id to) ∧
       NoDup (To <$> p) ∧
       (∀ k, k ∈ To <$> p → k ∉ ({[id from]} ∪ visited : gset string)) ∧
       Forall (λ k, is_Some (nodes g !! k)) (intermediate p) ∧
       chain_of g from to p = Some c.
Proof.
  intros Hinv. revert from visited c.
  induction fuel as [|fuel IH]; intros from visited c Hfuel; [lia|].
  rewrite elem_of_connections_from_S. split.
  - intros (r & Hr & Hvis & Hcase).
    apply elem_of_ListRelationships_from in Hr as [Hst Hfrom]; [|done].
    destruct Hcase as [[Heq ->]|(Hne & nxt & c' & Hnxt & Hc' & ->)].
    + exists [r]. split_and!; [done|..|done|done].
      * apply NoDup_singleton.
      * by intros k ->%list_elem_of_singleton.
    + pose proof (proj1 Hinv _ _ Hnxt) as Hid.
      apply IH in Hc' as (p' & Hpath & Hnd & Hfresh & Hmid & Hchain).
      2:{ pose proof (unvisited_decreases g visited (id from) (To r) Hvis) as Hlt.
          rewrite Hnxt in Hlt. specialize (Hlt (mk_is_Some _ _ eq_refl)). lia. }
      rewrite Hid in *.
      destruct p' as [|r' p'']; [done|].
      exists (r :: r' :: p''). split_and!.
      * done.
      * change (To <$> r :: r' :: p'') with (To r :: (To <$> r' :: p'')).
        apply NoDup_cons. split; [|done].
        intros Hin. apply Hfresh in Hin. set_solver.
      * change (To <$> r :: r' :: p'') with (To r :: (To <$> r' :: p'')).
        intros k [->|Hin]%elem_of_cons; [done|].
        apply Hfresh in Hin. set_solver.
      * cbn [intermediate]. constructor; [by rewrite Hnxt|done].
      * rewrite chain_of_cons_cons, Hnxt. cbn -[chain_of]. by rewrite Hchain.
  - intros (p & Hpath & Hnd & Hfresh & Hmid & Hchain).
    destruct p as [|r p']; [done|]. destruct Hpath as (Hst & Hfrom & Hpath).
    exists r. split; [by apply elem_of_ListRelationships_from|].
    split; [apply Hfresh; by left|].
    destruct p' as [|r' p''].
    + left. split; [done|]. by injection Hchain as <-.
    + right.
      change (To <$> r :: r' :: p'') with (To r :: (To <$> r' :: p'')) in *.
      apply NoDup_cons in Hnd as [Hnotin Hnd].
      split.
      { intros Heq. apply Hnotin. rewrite Heq.
        eapply directed_path_dst_elem, Hpath. }
      rewrite chain_of_cons_cons in Hchain.
      apply bind_Some in Hchain as (nxt & Hnxt & Hchain).
      apply bind_Some in Hchain as (c' & Hc' & [= <-]).
      pose proof (proj1 Hinv _ _ Hnxt) as Hid.
      exists nxt, c'. split_and!; [done| |done].
      apply IH.
      { assert (To r ∉ ({[id from]} ∪ visited : gset string)) as Hvis
          by (apply Hfresh; by left).
        pose proof (unvisited_decreases g visited (id from) (To r) Hvis) as Hlt.
        rewrite Hnxt in Hlt. specialize (Hlt (mk_is_Some _ _ eq_refl)). lia. }
      exists (r' :: p''). rewrite Hid. split_and!; [done|done| | |done].
      * intros k Hin.
        assert (k ≠ To r) by (intros ->; done).
        assert (k ∉ ({[id from]} ∪ visited : gset string))
          by (apply Hfresh; by right).
        set_solver.
      * cbn [intermediate] in Hmid. by apply Forall_cons in Hmid as [_ ?].
Qed.

Lemma NoDup_connections_from fuel g from to visited :
  Graph_inv g → NoDup (connections_from range fuel g from to visited).
Proof.
  intros Hinv. revert from visited.
  induction fuel as [|fuel IH]; intros from visited; [apply NoDup_nil_2|].
  cbn [connections_from]. apply NoDup_bind.
  - assert (∀ r y,
      y ∈ (if decide (To r ∈ ({[id from]} ∪ visited : gset string)) then []
           else if String.eqb (To r) (id to) then
             [mkChainLink from r (Some (mkChainLink to Relationship_zero None))]
           else match nodes g !! To r with
                | None => []
                | Some nxt =>
                    (λ cons, mkChainLink from r (Some cons)) <$>
                      connections_from range fuel g nxt to
                        ({[To r]} ∪ ({[id from]} ∪ visited))
                end) → rel y = r) as Hrel.
    { intros r y. case_decide; [by intros ?%elem_of_nil|].
      destruct (String.eqb (To r) (id to)).
      - by intros ->%list_elem_of_singleton.
      - destruct (nodes g !! To r); [|by intros ?%elem_of_nil].
        by intros (c' & -> & _)%list_elem_of_fmap. }
    intros r1 r2 y _ _ H1%Hrel H2%Hrel. congruence.
  - intros r _. case_decide; [apply NoDup_nil_2|].
    destruct (String.eqb (To r) (id to)); [apply NoDup_singleton|].
    destruct (nodes g !! To r) as [nxt|]; [|apply NoDup_nil_2].
    apply NoDup_fmap_2; [|apply IH]. by intros c1 c2 [= ->].
  - by apply NoDup_ListRelationships.
Qed.

Lemma elem_of_ListConnections g from to c :
  Graph_inv g →
  c ∈ ListConnections range g from to ↔
  ∃ p, simple_path g (id from) p (id to) ∧ chain_of g from to p = Some c.
Proof.
  intros Hinv. rewrite ListConnections_connections_from.
  rewrite elem_of_connections_from;
    [|done|rewrite difference_empty_L, size_dom; lia].
  unfold simple_path. split.
  - intros (p & Hpath & Hnd & Hfresh & Hmid & Hchain). exists p.
    split_and!; try done.
    apply NoDup_cons. split; [|done].
    intros Hin%Hfresh. set_solver.
  - intros (p & (Hpath & [Hnotin Hnd]%NoDup_cons & Hmid) & Hchain). exists p.
    split_and!; try done.
    intros k Hin. assert (k ≠ id from) by (by intros ->). set_solver.
Qed.

(** C7.  [ListNodes] returns a node iff it is stored and every supplied
    predicate returns true for it; with no predicate it returns every
    stored node; and listing with a label filter and a name filter
    together returns the nodes that both the listing with the label
    filter alone and the listing with the name filter alone return, which
    are the stored nodes with one of the labels and one of the names. *)
Theorem ListNodes_all_predicates g :
  (∀ where_ n,
     n ∈ ListNodes range g where_ ↔
     (∃ k, nodes g !! k = Some n) ∧
     ∀ clause, clause ∈ where_ → clause n = true) ∧
  (∀ n, n ∈ ListNodes range g [] ↔ ∃ k, nodes g !! k = Some n) ∧
  (∀ labels names n,
     n ∈ ListNodes range g [FilterNodesByLabel labels; FilterNodesByName names] ↔
     n ∈ ListNodes range g [FilterNodesByLabel labels] ∧
     n ∈ ListNodes range g [FilterNodesByName names]) ∧
  (∀ labels names n,
     n ∈ ListNodes range g [FilterNodesByLabel labels; FilterNodesByName names] ↔
     (∃ k, nodes g !! k = Some n) ∧ GetLabel n ∈ labels ∧ GetName n ∈ names).
Proof.
  split_and!.
  - intros where_ n. by rewrite elem_of_ListNodes, matchesAll_true.
  - intros n. rewrite elem_of_ListNodes. simpl. tauto.
  - intros labels names n. rewrite !elem_of_ListNodes. simpl.
    destruct (FilterNodesByLabel labels n), (FilterNodesByName names n); tauto.
  - intros labels names n. rewrite elem_of_ListNodes. simpl.
    rewrite <- !anyEqual_true. unfold FilterNodesByLabel, FilterNodesByName.
    destruct (anyEqual (GetLabel n) labels), (anyEqual (GetName n) names);
      naive_solver.
Qed.

(** Whatever identity [newRelationship] is given, [AddRelationship] fails
    iff the identity of [from] or of [to] is not in the node map of the
    store; the error then wraps [ErrNotFound], its text names the identity
    that was looked up, and the store is as before.  Otherwise the
    relationship is built from the two stored nodes, stored under its
    identity and returned, and the reads show it. *)
Lemma AddRelationship_under_identity g uid from to label :
  ((∃ err, (AddRelationship g uid from to label).2.2 = Some err) ↔
   nodes g !! GetID from = None ∨ nodes g !! GetID to = None) ∧
  (nodes g !! GetID from = None →
   ∃ err, AddRelationship g uid from to label = (g, (Relationship_zero, Some err)) ∧
          errors_Is err ErrNotFound = true ∧
          Error err = "getNodeByID " +:+ GetID from +:+ "; " +:+
                      Error ErrNotFound +:+ "; node with id '" +:+ GetID from +:+ "'") ∧
  (is_Some (nodes g !! GetID from) → nodes g !! GetID to = None →
   ∃ err, AddRelationship g uid from to label = (g, (Relationship_zero, Some err)) ∧
          errors_Is err ErrNotFound = true ∧
          Error err = "getNodeByID " +:+ GetID to +:+ "; " +:+
                      Error ErrNotFound +:+ "; node with id '" +:+ GetID to +:+ "'") ∧
  (∀ fromNode toNode,
     nodes g !! GetID from = Some fromNode →
     nodes g !! GetID to = Some toNode →
     let rel := newRelationship uid fromNode toNode label in
     let g' := (AddRelationship g uid from to label).1 in
     AddRelationship g uid from to label
     = (mkGraph (nodes g) (<[ID rel := rel]> (relationships g)), (rel, None)) ∧
     GetRelationshipByID g' (ID rel) = (rel, None) ∧
     rel ∈ ListRelationships range g' [] ∧
     (relationships g !! ID rel = None →
      size (relationships g') = S (size (relationships g)) ∧
      ∀ k r, relationships g !! k = Some r → relationships g' !! k = Some r)).
Proof.
  unfold AddRelationship, GetNodeByID. split_and!.
  - destruct (nodes g !! GetID from) as [fromNode|];
      [destruct (nodes g !! GetID to) as [toNode|]|]; simpl.
    + split; [by intros [? ?]|by intros [?|?]].
    + split; eauto.
    + split; eauto.
  - intros ->. eexists. split; [done|]. split; [|done].
    apply errors_Is_wrap, errors_Is_wrap, errors_Is_refl.
  - intros [fromNode ->] ->. eexists. split; [done|]. split; [|done].
    apply errors_Is_wrap, errors_Is_wrap, errors_Is_refl.
  - intros fromNode toNode -> ->. cbn zeta. split_and!.
    + done.
    + unfold GetRelationshipByID. simpl. by rewrite lookup_insert_eq.
    + apply elem_of_ListRelationships. split; [|done]. simpl.
      exists uid. by rewrite lookup_insert_eq.
    + simpl. intros Hfresh. split.
      * by rewrite map_size_insert_None.
      * intros k r Hk. rewrite lookup_insert_ne; [done|]. congruence.
Qed.

(** C8.  [AddRelationship], drawing the identity of the relationship from
    the generator, fails iff the identity of [from] or of [to] is not in
    the node map of the store, whatever the other fields of the caller's
    values are; the error then wraps [ErrNotFound], its text names the
    identity that was looked up, and the store and the generator are as
    before.  Otherwise the relationship is built from the two stored nodes
    under an identity that is fresh: the generator had not produced it and
    no stored relationship has it.  The relationship is returned and
    stored, [GetRelationshipByID] and [ListRelationships] then show it, and
    every relationship stored before is still there, so that the store
    holds one relationship more. *)
Theorem AddRelationship_checks_store G issued g from to label :
  dom (relationships g) ⊆ issued →
  ((∃ err, (AddRelationship_gen G issued g from to label).2.2.2 = Some err) ↔
   nodes g !! GetID from = None ∨ nodes g !! GetID to = None) ∧
  (nodes g !! GetID from = None →
   ∃ err, AddRelationship_gen G issued g from to label
          = (issued, (g, (Relationship_zero, Some err))) ∧
          errors_Is err ErrNotFound = true ∧
          Error err = "getNodeByID " +:+ GetID from +:+ "; " +:+
                      Error ErrNotFound +:+ "; node with id '" +:+ GetID from +:+ "'") ∧
  (is_Some (nodes g !! GetID from) → nodes g !! GetID to = None →
   ∃ err, AddRelationship_gen G issued g from to label
          = (issued, (g, (Relationship_zero, Some err))) ∧
          errors_Is err ErrNotFound = true ∧
          Error err = "getNodeByID " +:+ GetID to +:+ "; " +:+
                      Error ErrNotFound +:+ "; node with id '" +:+ GetID to +:+ "'") ∧
  (∀ fromNode toNode,
     nodes g !! GetID from = Some fromNode →
     nodes g !! GetID to = Some toNode →
     ∃ g' rel,
       AddRelationship_gen G issued g from to label
       = ({[ID rel]} ∪ issued, (g', (rel, None))) ∧
       rel = newRelationship (generate G issued) fromNode toNode label ∧
       (ID rel ∉ issued) ∧
       relationships g !! ID rel = None ∧
       (∀ k r, relationships g !! k = Some r → ID rel ≠ k) ∧
       nodes g' = nodes g ∧
       relationships g' = <[ID rel := rel]> (relationships g) ∧
       (∀ k r, relationships g !! k = Some r → relationships g' !! k = Some r) ∧
       size (relationships g') = S (size (relationships g)) ∧
       GetRelationshipByID g' (ID rel) = (rel, None) ∧
       rel ∈ ListRelationships range g' [] ∧
       dom (relationships g') ⊆ {[ID rel]} ∪ issued).
Proof.
  intros Hissued.
  pose proof (generate_fresh G issued) as Hfresh.
  assert (relationships g !! generate G issued = None) as Hnone.
  { apply not_elem_of_dom. set_solver. }
  destruct (AddRelationship_under_identity g (generate G issued) from to label)
    as (Hiff & Hfrom & Hto & Hok).
  unfold AddRelationship_gen, newIdentity.
  split_and!.
  - rewrite <- Hiff.
    by destruct (AddRelationship g (generate G issued) from to label)
      as [g1 [rel1 [err1|]]].
  - intros Hf. destruct (Hfrom Hf) as (err & -> & His & Htext).
    by exists err.
  - intros Hf Ht. destruct (Hto Hf Ht) as (err & -> & His & Htext).
    by exists err.
  - intros fromNode toNode Hf Ht.
    destruct (Hok fromNode toNode Hf Ht) as (Heq & Hget & Hlist & Hrest).
    destruct (Hrest Hnone) as [Hsize Hkept].
    rewrite Heq in *. simpl in *.
    exists (mkGraph (nodes g)
              (<[generate G issued :=
                   newRelationship (generate G issued) fromNode toNode label]>
                 (relationships g))),
           (newRelationship (generate G issued) fromNode toNode label).
    simpl. split_and!; try done.
    + intros k r Hk Heq'. rewrite Heq' in Hnone. congruence.
    + rewrite dom_insert_L. set_solver.
Qed.

(** C1.  For a store in which every entry is kept under its own identity
    and two nodes of distinct identities, the chains that
    [ListConnections] returns correspond one to one to the simple
    directed paths from [from] to [to] whose intermediate identities
    resolve to stored nodes: the returned list has no duplicates, its
    members are exactly the chains of such paths, and the relationships of
    a chain are its path, so that distinct paths have distinct chains.
    Each chain starts at [from], ends at [to], holds stored nodes in
    between, has pairwise distinct node identities, and each of its
    relationships is stored and leads from its link's node to the next
    link's node.  A path that differs from a returned one in a parallel
    relationship is returned too, as a different chain. *)
Theorem ListConnections_simple_paths g from to :
  Graph_inv g →
  id from ≠ id to →
  NoDup (ListConnections range g from to) ∧
  (∀ c, c ∈ ListConnections range g from to ↔
        ∃ p, simple_path g (id from) p (id to) ∧ chain_of g from to p = Some c) ∧
  (∀ p, simple_path g (id from) p (id to) →
        ∃ c, chain_of g from to p = Some c ∧ c ∈ ListConnections range g from to) ∧
  (∀ p c, chain_of g from to p = Some c → chain_rels c = p) ∧
  (∀ c, c ∈ ListConnections range g from to →
        linked c ∧
        Forall (stored g) (chain_rels c) ∧
        NoDup (id <$> chain_nodes c) ∧
        ∃ inner, chain_nodes c = from :: inner ++ [to] ∧
                 Forall (λ n, nodes g !! id n = Some n) inner) ∧
  (∀ pre r1 r2 post,
     simple_path g (id from) (pre ++ r1 :: post) (id to) →
     stored g r2 → From r2 = From r1 → To r2 = To r1 → r2 ≠ r1 →
     ∃ c1 c2, c1 ∈ ListConnections range g from to ∧
              c2 ∈ ListConnections range g from to ∧
              chain_rels c1 = pre ++ r1 :: post ∧
              chain_rels c2 = pre ++ r2 :: post ∧
              c1 ≠ c2).
Proof.
  intros Hinv _.
  assert (∀ p, simple_path g (id from) p (id to) →
    ∃ c, chain_of g from to p = Some c ∧ c ∈ ListConnections range g from to)
    as Hcomplete.
  { intros p Hp. pose proof Hp as (Hpath & _ & Hmid).
    destruct (simple_path_chain g from to p Hmid) as [c Hc].
    { by eapply directed_path_nonempty. }
    exists c. split; [done|]. apply elem_of_ListConnections; eauto. }
  split_and!.
  - rewrite ListConnections_connections_from. by apply NoDup_connections_from.
  - intros c. by apply elem_of_ListConnections.
  - done.
  - intros p c. apply chain_of_rels.
  - intros c (p & (Hpath & Hnd & Hmid) & Hchain)%elem_of_ListConnections; [|done].
    destruct (chain_of_shape g from to p c Hinv Hpath Hchain)
      as (Hlinked & Hstored & Hids & Hinner).
    split_and!; try done. by rewrite Hids.
  - intros pre r1 r2 post Hp1 Hst Hfrom Hto Hne.
    pose proof (simple_path_parallel _ _ _ _ _ _ _ Hst Hfrom Hto Hp1) as Hp2.
    destruct (Hcomplete _ Hp1) as (c1 & Hc1 & Hin1).
    destruct (Hcomplete _ Hp2) as (c2 & Hc2 & Hin2).
    exists c1, c2. apply chain_of_rels in Hc1, Hc2.
    split_and!; try done.
    intros ->. rewrite Hc1 in Hc2. apply app_inv_head in Hc2. congruence.
Qed.

(** C3.  [ListConnections] returns the empty list when no directed path
    of stored relationships leads from [from] to [to], and when [from] and
    [to] have the same identity. *)
Theorem ListConnections_empty g from to :
  Graph_inv g →
  (¬ ∃ p, directed_path g (id from) p (id to)) ∨ id from = id to →
  ListConnections range g from to = [].
Proof.
  intros Hinv Hcase.
  destruct (ListConnections range g from to) as [|c chains] eqn:E; [done|].
  exfalso.
  assert (c ∈ ListConnections range g from to) as Hin by (rewrite E; by left).
  apply elem_of_ListConnections in Hin as (p & (Hpath & Hnd & _) & _); [|done].
  destruct Hcase as [Hnone|Heq].
  - apply Hnone. by exists p.
  - apply NoDup_cons in Hnd as [Hnotin _]. apply Hnotin. rewrite Heq.
    by eapply directed_path_dst_elem.
Qed.

(** C10.  A relationship from [from] into the identity of [to] yields the
    chain [from], relationship, [to] whether or not that identity resolves
    to a stored node.  In [dangling_graph], where the node under "n2" was
    deleted and the relationship into it remains, the search from Bobita
    to a value the caller made up under "n2" returns one chain, whose last
    link holds the caller's value. *)
Theorem listConnections_terminal_unchecked :
  (∀ g from to k r,
     relationships g !! k = Some r →
     From r = id from → To r = id to → id from ≠ id to →
     mkChainLink from r (Some (mkChainLink to Relationship_zero None))
     ∈ ListConnections range g from to) ∧
  reachable dangling_graph ∧
  nodes dangling_graph !! id ghost = None ∧
  stored dangling_graph bobita_friends_azor ∧
  To bobita_friends_azor = id ghost ∧
  ListConnections range dangling_graph bobita ghost
  = [mkChainLink bobita bobita_friends_azor
       (Some (mkChainLink ghost Relationship_zero None))].
Proof.
  split_and!.
  - intros g from to k r Hk Hfrom Hto Hne.
    rewrite ListConnections_connections_from.
    apply elem_of_connections_from_S. exists r. split_and!.
    + apply elem_of_ListRelationships. split; [by exists k|].
      simpl. unfold FilterRelByFrom, GetID. rewrite Hfrom.
      by rewrite String.eqb_refl.
    + rewrite Hto. set_solver.
    + by left.
  - unfold dangling_graph, friends_graph, puppies_graph. repeat constructor.
  - by vm_compute.
  - by vm_compute.
  - done.
  - assert (range Relationship (relationships dangling_graph)
            = [("r1", bobita_friends_azor)]) as Hrange.
    { apply Permutation_singleton_r. rewrite range_perm. by vm_compute. }
    unfold ListConnections.
    replace (size (nodes dangling_graph)) with 1 by (by vm_compute).
    cbn [listConnections]. unfold ListRelationships. rewrite Hrange.
    by vm_compute.
Qed.
End Properties.

(** ** Termination of the connection finder, and what it returns *)

(** C2.  [listConnections] returns, also on a store with cycles, and it
    returns the simple paths only.  The set [toCheck] that a nested call
    receives, the copy of the visited set with the destination added,
    strictly includes the set the call itself received.  So a call whose
    visited set leaves [n] stored identities unvisited returns within
    [n + 1] nested calls, and more fuel does not change the chains;
    [ListConnections], which starts from the empty set, returns within one
    more nested call than there are stored nodes.  When the iteration
    enumerates the maps and every entry is stored under its own identity,
    what a call returns is a list without duplicates of exactly the chains
    of the directed paths from [from] to [to] that enter no identity twice,
    none of the visited set and not [from] again, through stored nodes;
    every such chain has pairwise distinct node identities and is no longer
    than the store allows; and what [ListConnections] returns is exactly
    the chains of the simple paths. *)
Theorem listConnections_terminates (range : range_order) g from to :
  (∀ (visited : gset string) r,
     To r ∉ ({[id from]} ∪ visited : gset string) →
     visited ⊂ {[To r]} ∪ copyMap ({[id from]} ∪ visited)) ∧
  (∀ visited, ∃ chains,
     ∀ fuel, size (dom (nodes g) ∖ visited) < fuel →
             listConnections range fuel g from to visited = Some chains) ∧
  listConnections range (S (size (nodes g))) g from to ∅
  = Some (ListConnections range g from to) ∧
  ((∀ (A : Type) (m : gmap string A), range A m ≡ₚ map_to_list m) →
   Graph_inv g →
   (∀ visited fuel chains,
      size (dom (nodes g) ∖ visited) < fuel →
      listConnections range fuel g from to visited = Some chains →
      NoDup chains ∧
      (∀ c, c ∈ chains ↔
            ∃ p, directed_path g (id from) p (id to) ∧
                 NoDup (To <$> p) ∧
                 (∀ k, k ∈ To <$> p → k ∉ ({[id from]} ∪ visited : gset string)) ∧
                 Forall (λ k, is_Some (nodes g !! k)) (intermediate p) ∧
                 chain_of g from to p = Some c) ∧
      (∀ c, c ∈ chains →
            linked c ∧
            NoDup (id <$> chain_nodes c) ∧
            (length (chain_rels c) ≤ S (size (nodes g)))%nat)) ∧
   (NoDup (ListConnections range g from to) ∧
    ∀ c, c ∈ ListConnections range g from to ↔
         ∃ p, simple_path g (id from) p (id to) ∧
              chain_of g from to p = Some c)).
Proof.
  split_and!.
  - intros visited r Hr. rewrite copyMap_id. set_solver.
  - intros visited.
    exists (connections_from range (S (size (dom (nodes g) ∖ visited)))
              g from to visited).
    intros fuel Hfuel. rewrite listConnections_connections_from by done.
    f_equal. apply connections_from_fuel; lia.
  - unfold ListConnections. rewrite listConnections_connections_from; [done|].
    rewrite difference_empty_L, size_dom. lia.
  - intros Hperm Hinv. split.
    + intros visited fuel chains Hfuel Hrun.
      rewrite listConnections_connections_from in Hrun by done.
      injection Hrun as <-.
      assert (∀ c, c ∈ connections_from range fuel g from to visited ↔
        ∃ p, directed_path g (id from) p (id to) ∧
             NoDup (To <$> p) ∧
             (∀ k, k ∈ To <$> p → k ∉ ({[id from]} ∪ visited : gset string)) ∧
             Forall (λ k, is_Some (nodes g !! k)) (intermediate p) ∧
             chain_of g from to p = Some c) as Hchar
        by (intros c; by apply elem_of_connections_from).
      split_and!.
      * by apply NoDup_connections_from.
      * done.
      * intros c (p & Hpath & Hnd & Hfresh & Hmid & Hchain)%Hchar.
        destruct (chain_of_shape g from to p c Hinv Hpath Hchain)
          as (Hlinked & _ & Hids & inner & Hnodes & Hinner).
        assert (NoDup (id <$> chain_nodes c)) as Hsimple.
        { rewrite Hids. apply NoDup_cons. split; [|done].
          intros Hin%Hfresh. set_solver. }
        split_and!; [done|done|].
        rewrite (chain_of_rels _ _ _ _ _ Hchain).
        assert (length (id <$> chain_nodes c) = S (length p)) as Hlen
          by (rewrite Hids; simpl; by rewrite length_fmap).
        rewrite Hnodes in Hlen, Hsimple. simpl in Hlen, Hsimple.
        rewrite fmap_app, length_app in Hlen. simpl in Hlen.
        rewrite fmap_app in Hsimple.
        apply NoDup_cons in Hsimple as [_ [Hnd' _]%NoDup_app].
        assert (length (id <$> inner) ≤ size (nodes g))%nat; [|lia].
        rewrite <- (size_list_to_set (C:=gset string) (id <$> inner)) by done.
        rewrite <- (size_dom (D:=gset string) (nodes g)). apply subseteq_size.
        intros k (n & -> & Hn)%elem_of_list_to_set%list_elem_of_fmap.
        apply elem_of_dom. eapply Forall_forall in Hinner; [|done].
        by eexists.
    + split.
      * rewrite ListConnections_connections_from.
        by apply NoDup_connections_from.
      * intros c. by apply elem_of_ListConnections.
Qed.

(** ** Nodes of the store *)

(** C4.  Insert-then-get: after [InsertNode name label body], [GetNodeByID]
    at the identity of the returned node succeeds and yields a node with
    exactly that label and that body, whatever the store held before and
    whatever identity the generator drew. *)
Theorem InsertNode_GetNodeByID g uid name label body :
  ∃ n, GetNodeByID (InsertNode g uid name label body).1
         (GetID (InsertNode g uid name label body).2) = (n, None) ∧
       GetLabel n = label ∧ Body n = body.
Proof.
  exists (newNode uid name label body). unfold GetNodeByID, InsertNode. simpl.
  by rewrite lookup_insert_eq.
Qed.

(** C5.  [UpdateNode] on a stored node replaces the body and nothing else:
    the call succeeds, the returned node has the identity, name and label it
    had and the new body, every other entry of the node map and the whole
    relationship map are as before, and [GetNodeByID] then returns the
    updated node. *)
Theorem UpdateNode_replaces_body_only g nodeID n body :
  Graph_inv g →
  nodes g !! nodeID = Some n →
  ∃ g' n',
    UpdateNode g nodeID body = (g', (n', None)) ∧
    id n' = id n ∧ name n' = name n ∧ label n' = label n ∧ Body n' = body ∧
    (∀ k, k ≠ nodeID → nodes g' !! k = nodes g !! k) ∧
    relationships g' = relationships g ∧
    GetNodeByID g' nodeID = (n', None).
Proof.
  intros [Hn _] Hlook. unfold UpdateNode. rewrite Hlook.
  pose proof (Hn _ _ Hlook) as Hid.
  eexists _, _. split; [done|]. unfold GetNodeByID. simpl. rewrite Hid.
  split_and!; try done.
  - intros k Hk. by rewrite lookup_insert_ne.
  - by rewrite lookup_insert_eq.
Qed.

(** C6.  On an identity that is not in the node map, [GetNodeByID],
    [UpdateNode] and [DeleteNode] return an error that wraps [ErrNotFound],
    and the store the two mutating operations leave is the store they
    found. *)
Theorem absent_identity_NotFound g nodeID body :
  nodes g !! nodeID = None →
  (∃ err, GetNodeByID g nodeID = (Node_zero, Some err) ∧
          errors_Is err ErrNotFound = true) ∧
  (∃ err, UpdateNode g nodeID body = (g, (Node_zero, Some err)) ∧
          errors_Is err ErrNotFound = true) ∧
  (∃ err, DeleteNode g nodeID = (g, Some err) ∧
          errors_Is err ErrNotFound = true).
Proof.
  intros Hlook. unfold GetNodeByID, UpdateNode, DeleteNode. rewrite Hlook.
  split_and!; eexists; (split; [done|]);
    apply errors_Is_wrap, errors_Is_refl.
Qed.

(** C9.  [DeleteNode] on a stored identity succeeds and removes that entry
    of the node map only: every other node is as before and the
    relationship map is unchanged, so the relationships that leave or enter
    the deleted node are still stored. *)
Theorem DeleteNode_removes_node_only g nodeID n :
  Graph_inv g →
  nodes g !! nodeID = Some n →
  ∃ g',
    DeleteNode g nodeID = (g', None) ∧
    nodes g' !! nodeID = None ∧
    (∀ k, k ≠ nodeID → nodes g' !! k = nodes g !! k) ∧
    relationships g' = relationships g ∧
    (∀ r, stored g r → From r = nodeID ∨ To r = nodeID → stored g' r).
Proof.
  intros [Hn _] Hlook. unfold DeleteNode. rewrite Hlook.
  pose proof (Hn _ _ Hlook) as Hid.
  eexists. split; [done|]. simpl. rewrite Hid. split_and!; try done.
  - by rewrite lookup_delete_eq.
  - intros k Hk. by rewrite lookup_delete_ne.
Qed.

(** ** The properties at work on the example stores *)

Lemma range_map_to_list_perm (A : Type) (m : gmap string A) :
  range_map_to_list A m ≡ₚ map_to_list m.
Proof. done. Qed.

Lemma example_graph_reachable : reachable example_graph.
Proof. unfold example_graph. repeat constructor. Qed.

Lemma cycle_graph_reachable : reachable cycle_graph.
Proof. unfold cycle_graph. repeat constructor. Qed.

Lemma friends_graph_reachable : reachable friends_graph.
Proof. unfold friends_graph, puppies_graph. repeat constructor. Qed.

(** [Test_Graph_ListConnections]: two chains from Bobita to Smaug, one
    through Azor and the direct one. *)
Example ListConnections_example_graph :
  ∃ r1 r2 r3,
    stored example_graph r1 ∧ stored example_graph r2 ∧ stored example_graph r3 ∧
    Label r1 = "friends" ∧ Label r2 = "enemies" ∧ Label r3 = "enemies" ∧
    ListConnections range_map_to_list example_graph bobita smaug
    = [mkChainLink bobita r1
         (Some (mkChainLink azor r3
            (Some (mkChainLink smaug Relationship_zero None))));
       mkChainLink bobita r2
         (Some (mkChainLink smaug Relationship_zero None))].
Proof.
  exists (newRelationship "r1" bobita azor "friends"),
         (newRelationship "r2" bobita smaug "enemies"),
         (newRelationship "r3" azor smaug "enemies").
  by vm_compute.
Qed.

(** On the cycle the search from Bobita to Smaug returns the one simple
    path, and the search from Bobita to Bobita returns nothing. *)
Example ListConnections_cycle_graph :
  ListConnections range_map_to_list cycle_graph bobita smaug
  = [mkChainLink bobita (newRelationship "r1" bobita azor "friends")
       (Some (mkChainLink azor (newRelationship "r2" azor smaug "enemies")
          (Some (mkChainLink smaug Relationship_zero None))))] ∧
  ListConnections range_map_to_list cycle_graph bobita bobita = [].
Proof. by vm_compute. Qed.

Lemma ListConnections_simple_paths_witness :
  Graph_inv example_graph ∧
  id bobita ≠ id smaug ∧
  NoDup (ListConnections range_map_to_list example_graph bobita smaug) ∧
  (∀ c, c ∈ ListConnections range_map_to_list example_graph bobita smaug ↔
        ∃ p, simple_path example_graph (id bobita) p (id smaug) ∧
             chain_of example_graph bobita smaug p = Some c).
Proof.
  assert (Graph_inv example_graph) as Hinv
    by exact (reachable_inv _ example_graph_reachable).
  assert (id bobita ≠ id smaug) as Hne by discriminate.
  split; [exact Hinv|]. split; [exact Hne|].
  destruct (ListConnections_simple_paths range_map_to_list range_map_to_list_perm
              example_graph bobita smaug Hinv Hne) as (H1 & H2 & _).
  split; [exact H1|exact H2].
Defined.

Lemma listConnections_terminates_witness :
  (∀ (A : Type) (m : gmap string A), range_map_to_list A m ≡ₚ map_to_list m) ∧
  Graph_inv cycle_graph ∧
  listConnections range_map_to_list (S (size (nodes cycle_graph)))
    cycle_graph bobita smaug ∅
  = Some (ListConnections range_map_to_list cycle_graph bobita smaug) ∧
  NoDup (ListConnections range_map_to_list cycle_graph bobita smaug) ∧
  (∀ c, c ∈ ListConnections range_map_to_list cycle_graph bobita smaug ↔
        ∃ p, simple_path cycle_graph (id bobita) p (id smaug) ∧
             chain_of cycle_graph bobita smaug p = Some c).
Proof.
  assert (Graph_inv cycle_graph) as Hinv
    by exact (reachable_inv _ cycle_graph_reachable).
  split; [exact range_map_to_list_perm|]. split; [exact Hinv|].
  destruct (listConnections_terminates range_map_to_list cycle_graph bobita smaug)
    as (_ & _ & Hrun & Hsimple).
  split; [exact Hrun|].
  exact (proj2 (Hsimple range_map_to_list_perm Hinv)).
Defined.

Lemma ListConnections_empty_witness :
  Graph_inv cycle_graph ∧
  id bobita = id bobita ∧
  ListConnections range_map_to_list cycle_graph bobita bobita = [].
Proof.
  assert (Graph_inv cycle_graph) as Hinv
    by exact (reachable_inv _ cycle_graph_reachable).
  split; [exact Hinv|]. split; [reflexivity|].
  apply (ListConnections_empty range_map_to_list range_map_to_list_perm
           cycle_graph bobita bobita Hinv).
  right. reflexivity.
Defined.

Lemma UpdateNode_replaces_body_only_witness :
  Graph_inv example_graph ∧
  nodes example_graph !! "n1" = Some bobita ∧
  ∃ g' n',
    UpdateNode example_graph "n1" [x7b; x7d] = (g', (n', None)) ∧
    id n' = id bobita ∧ name n' = name bobita ∧ label n' = label bobita ∧
    Body n' = [x7b; x7d] ∧
    (∀ k, k ≠ "n1" → nodes g' !! k = nodes example_graph !! k) ∧
    relationships g' = relationships example_graph ∧
    GetNodeByID g' "n1" = (n', None).
Proof.
  assert (Graph_inv example_graph) as Hinv
    by exact (reachable_inv _ example_graph_reachable).
  assert (nodes example_graph !! "n1" = Some bobita) as Hlook by (vm_compute; reflexivity).
  split; [exact Hinv|]. split; [exact Hlook|].
  exact (UpdateNode_replaces_body_only example_graph "n1" bobita [x7b; x7d] Hinv Hlook).
Defined.

Lemma absent_identity_NotFound_witness :
  nodes NewGraph !! "bobitaNodeID" = None ∧
  (∃ err, GetNodeByID NewGraph "bobitaNodeID" = (Node_zero, Some err) ∧
          errors_Is err ErrNotFound = true) ∧
  (∃ err, UpdateNode NewGraph "bobitaNodeID" [x7b; x7d]
          = (NewGraph, (Node_zero, Some err)) ∧
          errors_Is err ErrNotFound = true) ∧
  (∃ err, DeleteNode NewGraph "bobitaNodeID" = (NewGraph, Some err) ∧
          errors_Is err ErrNotFound = true).
Proof.
  assert (nodes NewGraph !! "bobitaNodeID" = None) as Hlook by reflexivity.
  split; [exact Hlook|].
  exact (absent_identity_NotFound NewGraph "bobitaNodeID" [x7b; x7d] Hlook).
Defined.

Lemma ListNodes_all_predicates_witness :
  (∀ (A : Type) (m : gmap string A), range_map_to_list A m ≡ₚ map_to_list m) ∧
  (∀ n,
     n ∈ ListNodes range_map_to_list example_graph
           [FilterNodesByLabel ["puppy"]; FilterNodesByName ["Bobita"; "Smaug"]] ↔
     n ∈ ListNodes range_map_to_list example_graph [FilterNodesByLabel ["puppy"]] ∧
     n ∈ ListNodes range_map_to_list example_graph
           [FilterNodesByName ["Bobita"; "Smaug"]]).
Proof.
  split; [exact range_map_to_list_perm|].
  destruct (ListNodes_all_predicates range_map_to_list range_map_to_list_perm
              example_graph) as (_ & _ & H & _).
  exact (H ["puppy"] ["Bobita"; "Smaug"]).
Defined.

(** [Test_Graph_AddRelationship]: both calls succeed, the two
    relationships have different identities and both are listed. *)
Example AddRelationship_test :
  running fresh_generator test_competitors.1 test_competitors.2.1 ∧
  test_friends.2.2.2 = None ∧
  test_competitors.2.2.2 = None ∧
  ID test_friends.2.2.1 ≠ ID test_competitors.2.2.1 ∧
  length (ListRelationships range_map_to_list test_competitors.2.1 []) = 2 ∧
  test_friends.2.2.1 ∈ ListRelationships range_map_to_list test_competitors.2.1 [] ∧
  test_competitors.2.2.1
  ∈ ListRelationships range_map_to_list test_competitors.2.1 [].
Proof.
  split.
  - unfold test_competitors, test_friends, test_azor, test_bobita.
    repeat constructor.
  - vm_compute. split_and!; try done; set_solver.
Qed.

Lemma AddRelationship_checks_store_witness :
  (∀ (A : Type) (m : gmap string A), range_map_to_list A m ≡ₚ map_to_list m) ∧
  dom (relationships friends_graph) ⊆ friends_issued ∧
  nodes friends_graph !! GetID bobita = Some bobita ∧
  nodes friends_graph !! GetID ghost = Some azor ∧
  ∃ g' rel,
    AddRelationship_gen fresh_generator friends_issued friends_graph
      bobita ghost "friends"
    = ({[ID rel]} ∪ friends_issued, (g', (rel, None))) ∧
    rel = newRelationship (generate fresh_generator friends_issued)
            bobita azor "friends" ∧
    (ID rel ∉ friends_issued) ∧
    relationships friends_graph !! ID rel = None ∧
    size (relationships g') = S (size (relationships friends_graph)) ∧
    GetRelationshipByID g' (ID rel) = (rel, None).
Proof.
  split; [exact range_map_to_list_perm|].
  assert (dom (relationships friends_graph) ⊆ friends_issued) as Hissued.
  { refine (bool_decide_unpack _ _). vm_compute. exact I. }
  assert (nodes friends_graph !! GetID bobita = Some bobita) as Hfrom
    by (vm_compute; reflexivity).
  assert (nodes friends_graph !! GetID ghost = Some azor) as Hto
    by (vm_compute; reflexivity).
  split; [exact Hissued|]. split; [exact Hfrom|]. split; [exact Hto|].
  destruct (AddRelationship_checks_store range_map_to_list range_map_to_list_perm
              fresh_generator friends_issued friends_graph bobita ghost "friends"
              Hissued) as (_ & _ & _ & H).
  destruct (H bobita azor Hfrom Hto)
    as (g' & rel & H1 & H2 & H3 & H4 & _ & _ & _ & _ & H5 & H6 & _).
  exists g', rel.
  split; [exact H1|]. split; [exact H2|]. split; [exact H3|].
  split; [exact H4|]. split; [exact H5|exact H6].
Defined.

Lemma DeleteNode_removes_node_only_witness :
  Graph_inv friends_graph ∧
  nodes friends_graph !! "n2" = Some azor ∧
  ∃ g',
    DeleteNode friends_graph "n2" = (g', None) ∧
    nodes g' !! "n2" = None ∧
    (∀ k, k ≠ "n2" → nodes g' !! k = nodes friends_graph !! k) ∧
    relationships g' = relationships friends_graph ∧
    (∀ r, stored friends_graph r → From r = "n2" ∨ To r = "n2" → stored g' r).
Proof.
  assert (Graph_inv friends_graph) as Hinv
    by exact (reachable_inv _ friends_graph_reachable).
  assert (nodes friends_graph !! "n2" = Some azor) as Hlook by (vm_compute; reflexivity).
  split; [exact Hinv|]. split; [exact Hlook|].
  exact (DeleteNode_removes_node_only friends_graph "n2" azor Hinv Hlook).
Defined.

Lemma listConnections_terminal_unchecked_witness :
  (∀ (A : Type) (m : gmap string A), range_map_to_list A m ≡ₚ map_to_list m) ∧
  nodes dangling_graph !! id ghost = None ∧
  ListConnections range_map_to_list dangling_graph bobita ghost
  = [mkChainLink bobita bobita_friends_azor
       (Some (mkChainLink ghost Relationship_zero None))].
Proof.
  split; [exact range_map_to_list_perm|].
  destruct (listConnections_terminal_unchecked range_map_to_list
              range_map_to_list_perm) as (_ & _ & H1 & _ & _ & H2).
  split; [exact H1|exact H2].
Defined.

(** * Further properties of the store *)

Lemma AddRelationship_nodes g uid from to label :
  nodes (AddRelationship g uid from to label).1 = nodes g.
Proof.
  unfold AddRelationship, GetNodeByID.
  destruct (nodes g !! GetID from); [|done].
  by destruct (nodes g !! GetID to).
Qed.

Lemma UpdateNode_relationships g nodeID body :
  relationships (UpdateNode g nodeID body).1 = relationships g.
Proof. unfold UpdateNode. by destruct (nodes g !! nodeID). Qed.

Lemma DeleteNode_relationships g nodeID :
  relationships (DeleteNode g nodeID).1 = relationships g.
Proof. unfold DeleteNode. by destruct (nodes g !! nodeID). Qed.

(** ** Lookups *)

(** X1.  [GetRelationshipByID] returns the stored relationship when the
    identity is in the relationship map, and otherwise the zero value with
    an error that wraps [ErrNotFound] and whose text ends with the
    identity; it succeeds iff the identity is stored. *)
Theorem GetRelationshipByID_found_or_NotFound g k :
  (∀ r, relationships g !! k = Some r → GetRelationshipByID g k = (r, None)) ∧
  (relationships g !! k = None →
   ∃ err, GetRelationshipByID g k = (Relationship_zero, Some err) ∧
          errors_Is err ErrNotFound = true ∧
          Error err
          = Error ErrNotFound +:+ "; relationship with id '" +:+ k +:+ "'") ∧
  ((GetRelationshipByID g k).2 = None ↔ is_Some (relationships g !! k)).
Proof.
  unfold GetRelationshipByID. split_and!.
  - by intros r ->.
  - intros ->. eexists. split_and!; [done| |done].
    apply errors_Is_wrap, errors_Is_refl.
  - destruct (relationships g !! k); simpl; split; try done;
      first [by eexists|by intros [? ?]].
Qed.

(** X2.  [GetNodeByID] returns the stored node when the identity is in the
    node map, and otherwise the zero node with an error whose text ends
    with the identity; it succeeds iff the identity is stored. *)
Theorem GetNodeByID_found_or_NotFound g k :
  (∀ n, nodes g !! k = Some n → GetNodeByID g k = (n, None)) ∧
  (nodes g !! k = None →
   ∃ err, GetNodeByID g k = (Node_zero, Some err) ∧
          Unwrap err = Some ErrNotFound ∧
          Error err = Error ErrNotFound +:+ "; node with id '" +:+ k +:+ "'") ∧
  ((GetNodeByID g k).2 = None ↔ is_Some (nodes g !! k)).
Proof.
  unfold GetNodeByID. split_and!.
  - by intros n ->.
  - intros ->. by eexists.
  - destruct (nodes g !! k); simpl; split; try done;
      first [by eexists|by intros [? ?]].
Qed.

(** ** What the mutating operations keep *)

(** X3.  Every entry of both maps is stored under its own identity in a new
    graph, each mutating operation keeps it so, and so it holds in every
    state of a store. *)
Theorem store_keeps_identities :
  Graph_inv NewGraph ∧
  (∀ g, Graph_inv g →
     (∀ uid name label body, Graph_inv (InsertNode g uid name label body).1) ∧
     (∀ nodeID body, Graph_inv (UpdateNode g nodeID body).1) ∧
     (∀ nodeID, Graph_inv (DeleteNode g nodeID).1) ∧
     (∀ uid from to label, Graph_inv (AddRelationship g uid from to label).1)) ∧
  (∀ g, reachable g → Graph_inv g).
Proof.
  split_and!.
  - apply NewGraph_inv.
  - intros g Hinv.
    split_and!; eauto using InsertNode_inv, UpdateNode_inv, DeleteNode_inv,
      AddRelationship_inv.
  - apply reachable_inv.
Qed.

(** X4.  No operation removes a relationship, and only [AddRelationship]
    touches the relationship map: an identity that is in the relationship
    map stays in it through every mutating operation, and the three node
    operations leave the map as it is. *)
Theorem relationships_never_removed g k :
  is_Some (relationships g !! k) →
  (∀ uid name label body,
     relationships (InsertNode g uid name label body).1 = relationships g) ∧
  (∀ nodeID body, relationships (UpdateNode g nodeID body).1 = relationships g) ∧
  (∀ nodeID, relationships (DeleteNode g nodeID).1 = relationships g) ∧
  (∀ uid from to label,
     is_Some (relationships (AddRelationship g uid from to label).1 !! k) ∧
     nodes (AddRelationship g uid from to label).1 = nodes g).
Proof.
  intros Hk. split_and!.
  - done.
  - intros nodeID body. unfold UpdateNode. by destruct (nodes g !! nodeID).
  - intros nodeID. unfold DeleteNode. by destruct (nodes g !! nodeID).
  - intros uid from to label. unfold AddRelationship, GetNodeByID.
    destruct (nodes g !! GetID from); [|done].
    destruct (nodes g !! GetID to); [|done]. simpl. split; [|done].
    rewrite lookup_insert. by case_decide.
Qed.

(** X5.  [InsertNode] stores the returned node under its identity and
    leaves every other node alone.  When that identity was not in use the
    store has one node more; when it was, the node that was there is
    replaced and the count stays. *)
Theorem InsertNode_frame g uid name label body :
  let g' := (InsertNode g uid name label body).1 in
  let created := (InsertNode g uid name label body).2 in
  nodes g' !! id created = Some created ∧
  (∀ k, k ≠ id created → nodes g' !! k = nodes g !! k) ∧
  (nodes g !! id created = None → size (nodes g') = S (size (nodes g))) ∧
  (is_Some (nodes g !! id created) → size (nodes g') = size (nodes g)).
Proof.
  simpl. split_and!.
  - by rewrite lookup_insert_eq.
  - intros k Hk. by rewrite lookup_insert_ne.
  - apply map_size_insert_None.
  - apply map_size_insert_Some.
Qed.

(** X6.  Inserting a node under an identity that was not in use and then
    deleting it gives the store back as it was. *)
Theorem InsertNode_DeleteNode g uid name label body :
  nodes g !! id (InsertNode g uid name label body).2 = None →
  DeleteNode (InsertNode g uid name label body).1
    (id (InsertNode g uid name label body).2) = (g, None).
Proof.
  simpl. intros Hfresh. unfold DeleteNode. simpl.
  rewrite lookup_insert_eq. simpl.
  rewrite delete_insert_eq, delete_id by done. by destruct g.
Qed.

(** X7.  After [DeleteNode] succeeds the store has one node less, and
    [GetNodeByID], [UpdateNode] and a second [DeleteNode] on that identity
    fail with an error that wraps [ErrNotFound]. *)
Theorem DeleteNode_then_NotFound g nodeID n body :
  Graph_inv g →
  nodes g !! nodeID = Some n →
  let g' := (DeleteNode g nodeID).1 in
  S (size (nodes g')) = size (nodes g) ∧
  (∃ err, GetNodeByID g' nodeID = (Node_zero, Some err) ∧
          errors_Is err ErrNotFound = true) ∧
  (∃ err, UpdateNode g' nodeID body = (g', (Node_zero, Some err)) ∧
          errors_Is err ErrNotFound = true) ∧
  (∃ err, DeleteNode g' nodeID = (g', Some err) ∧
          errors_Is err ErrNotFound = true).
Proof.
  intros [Hn _] Hlook. pose proof (Hn _ _ Hlook) as Hid. simpl.
  assert ((DeleteNode g nodeID).1
          = mkGraph (delete nodeID (nodes g)) (relationships g)) as ->.
  { unfold DeleteNode. rewrite Hlook. simpl. by rewrite Hid. }
  assert (nodes (mkGraph (delete nodeID (nodes g)) (relationships g)) !! nodeID
          = None) as Hgone by (simpl; by rewrite lookup_delete_eq).
  split.
  - simpl. rewrite map_size_delete_Some by (by eexists).
    assert (size (nodes g) ≠ 0); [|lia].
    intros Hz%map_size_empty_inv. by rewrite Hz, lookup_empty in Hlook.
  - unfold GetNodeByID, UpdateNode, DeleteNode. rewrite Hgone.
    split_and!; eexists; (split; [done|]);
      apply errors_Is_wrap, errors_Is_refl.
Qed.

(** X8.  Of two updates of the same stored node the second one wins, an
    update with the body the node already has changes nothing, and an
    update never changes the number of nodes. *)
Theorem UpdateNode_twice g nodeID n body1 body2 :
  Graph_inv g →
  nodes g !! nodeID = Some n →
  UpdateNode (UpdateNode g nodeID body1).1 nodeID body2 = UpdateNode g nodeID body2 ∧
  (UpdateNode g nodeID (Body n)).1 = g ∧
  size (nodes (UpdateNode g nodeID body1).1) = size (nodes g).
Proof.
  intros [Hn _] Hlook. pose proof (Hn _ _ Hlook) as Hid.
  unfold UpdateNode. rewrite Hlook. simpl. rewrite Hid.
  rewrite lookup_insert_eq. simpl. split_and!.
  - by rewrite insert_insert_eq.
  - destruct g as [ns rs]. simpl in *. f_equal.
    apply insert_id. rewrite Hlook. f_equal. destruct n. simpl in *. by subst.
  - apply map_size_insert_Some. by eexists.
Qed.

(** X9.  The name and the label of a stored node are fixed: after
    [UpdateNode], [DeleteNode] or [AddRelationship], a node found under an
    identity has the identity, name and label of the node that was there
    before. *)
Theorem name_and_label_fixed g k n n' :
  Graph_inv g →
  nodes g !! k = Some n →
  (∀ nodeID body,
     nodes (UpdateNode g nodeID body).1 !! k = Some n' →
     id n' = id n ∧ name n' = name n ∧ label n' = label n) ∧
  (∀ nodeID, nodes (DeleteNode g nodeID).1 !! k = Some n' → n' = n) ∧
  (∀ uid from to label,
     nodes (AddRelationship g uid from to label).1 !! k = Some n' → n' = n).
Proof.
  intros [Hn _] Hlook. split_and!.
  - intros nodeID body. unfold UpdateNode.
    destruct (nodes g !! nodeID) as [m|] eqn:Hm; simpl.
    + pose proof (Hn _ _ Hm) as Hid. rewrite Hid, lookup_insert.
      case_decide as Hk.
      * subst k. intros [= <-]. simpl. by simplify_eq.
      * intros ?. by simplify_eq.
    + intros ?. by simplify_eq.
  - intros nodeID. unfold DeleteNode.
    destruct (nodes g !! nodeID) as [m|] eqn:Hm; simpl.
    + rewrite lookup_delete. case_decide; [done|]. intros ?. by simplify_eq.
    + intros ?. by simplify_eq.
  - intros uid from to label. rewrite AddRelationship_nodes.
    intros ?. by simplify_eq.
Qed.

(** ** Helper lemmas on chains, paths and stores *)

Lemma ChainLink_induction (P : ChainLink → Prop) :
  (∀ n r, P (mkChainLink n r None)) →
  (∀ n r c, P c → P (mkChainLink n r (Some c))) →
  ∀ c, P c.
Proof.
  intros Hlast Hlink. fix IH 1. intros [n r [c|]].
  - apply Hlink, IH.
  - apply Hlast.
Qed.

Lemma string_app_assoc (a b c : string) : (a +:+ b) +:+ c = a +:+ (b +:+ c).
Proof.
  induction a as [|x a IH]; [done|]. exact (f_equal (String x) IH).
Qed.

Lemma ChainLink_String_arrows NS RS c :
  Forall (λ n, id n ≠ "") (chain_nodes c) →
  Forall (λ r, ID r ≠ "") (chain_rels c) →
  ID (last_rel c) = "" →
  ChainLink_String NS RS c = arrows NS RS (chain_nodes c) (chain_rels c).
Proof.
  induction c as [n r|n r c IH] using ChainLink_induction.
  - intros [Hn _]%Forall_cons _ Hr. simpl in *. unfold GetID.
    apply String.eqb_neq in Hn. rewrite Hn, Hr. done.
  - intros [Hn Hns]%Forall_cons [Hr Hrs]%Forall_cons Hlast.
    cbn [ChainLink_String chain_nodes chain_rels arrows]. unfold GetID.
    apply String.eqb_neq in Hn, Hr. rewrite Hn, Hr. cbn [negb].
    rewrite (IH Hns Hrs Hlast).
    change ("" +:+ NS n) with (NS n).
    by rewrite !string_app_assoc.
Qed.

Lemma chain_of_last_rel g cur to p c :
  chain_of g cur to p = Some c → last_rel c = Relationship_zero.
Proof.
  revert cur c. induction p as [|r p' IH]; intros cur c; [done|].
  destruct p' as [|r' p'']; [by intros [= <-]|].
  rewrite chain_of_cons_cons.
  intros (nxt & _ & (c' & Hc' & [= <-])%bind_Some)%bind_Some.
  cbn -[chain_of]. by eapply IH.
Qed.

Lemma directed_path_stored_ext g g' src p dst :
  (∀ r, stored g r → stored g' r) →
  directed_path g src p dst → directed_path g' src p dst.
Proof.
  intros Hst. revert src. induction p as [|r p' IH]; intros src; [done|].
  destruct p' as [|r' p''].
  - intros (? & ? & ?). split_and!; auto.
  - intros (? & ? & ?). split; [auto|]. split; [done|]. by apply IH.
Qed.

Lemma chain_of_ext g g' cur to p :
  (∀ k, k ∈ intermediate p → nodes g' !! k = nodes g !! k) →
  chain_of g' cur to p = chain_of g cur to p.
Proof.
  revert cur. induction p as [|r p' IH]; intros cur Hsame; [done|].
  destruct p' as [|r' p'']; [done|].
  rewrite !chain_of_cons_cons. cbn [intermediate] in Hsame.
  rewrite (Hsame (To r)) by (by left).
  destruct (nodes g !! To r) as [nxt|]; [|done]. cbn -[chain_of].
  rewrite IH; [done|]. intros k Hk. apply Hsame. by right.
Qed.

Lemma simple_path_ext g g' src p dst :
  (∀ r, stored g r → stored g' r) →
  (∀ k, k ∈ intermediate p → is_Some (nodes g !! k) → is_Some (nodes g' !! k)) →
  simple_path g src p dst → simple_path g' src p dst.
Proof.
  intros Hst Hnodes (Hpath & Hnd & Hmid). split_and!.
  - by eapply directed_path_stored_ext.
  - done.
  - apply Forall_forall. intros k Hk. apply Hnodes; [done|].
    by eapply Forall_forall in Hmid.
Qed.

Lemma DeleteNode_nodes g nodeID :
  Graph_inv g → nodes (DeleteNode g nodeID).1 = delete nodeID (nodes g).
Proof.
  intros [Hn _]. unfold DeleteNode.
  destruct (nodes g !! nodeID) as [n|] eqn:Hlook; simpl.
  - by rewrite (Hn _ _ Hlook).
  - by rewrite delete_id.
Qed.

Lemma UpdateNode_nodes_ne g nodeID body k :
  Graph_inv g → k ≠ nodeID →
  nodes (UpdateNode g nodeID body).1 !! k = nodes g !! k.
Proof.
  intros [Hn _] Hk. unfold UpdateNode.
  destruct (nodes g !! nodeID) as [n|] eqn:Hlook; simpl; [|done].
  rewrite (Hn _ _ Hlook). by rewrite lookup_insert_ne.
Qed.

Lemma UpdateNode_is_Some g nodeID body k :
  Graph_inv g →
  is_Some (nodes (UpdateNode g nodeID body).1 !! k) ↔ is_Some (nodes g !! k).
Proof.
  intros Hinv. destruct (decide (k = nodeID)) as [->|Hk].
  - destruct Hinv as [Hn _]. unfold UpdateNode.
    destruct (nodes g !! nodeID) as [n|] eqn:Hlook; simpl.
    + rewrite (Hn _ _ Hlook), lookup_insert_eq. split; by eexists.
    + by rewrite Hlook.
  - by rewrite UpdateNode_nodes_ne.
Qed.

Lemma filter_all {A} (P : A → Prop) `{∀ x, Decision (P x)} (l : list A) :
  (∀ x, P x) → filter P l = l.
Proof.
  intros HP. induction l as [|x l IH]; [done|].
  rewrite filter_cons_True by done. by rewrite IH.
Qed.

Lemma filter_none {A} (P : A → Prop) `{∀ x, Decision (P x)} (l : list A) :
  (∀ x, ¬ P x) → filter P l = [].
Proof.
  intros HP. induction l as [|x l IH]; [done|].
  by rewrite filter_cons_False.
Qed.

Lemma anyEqual_app x xs ys :
  anyEqual x (xs ++ ys) = anyEqual x xs || anyEqual x ys.
Proof.
  induction xs as [|y xs IH]; simpl; [done|].
  by destruct (String.eqb x y).
Qed.

Section FurtherProperties.
Variable range : range_order.
Hypothesis range_perm :
  ∀ (A : Type) (m : gmap string A), range A m ≡ₚ map_to_list m.

Lemma range_empty (A : Type) : range A ∅ = [].
Proof. apply Permutation_nil_r. by rewrite range_perm, map_to_list_empty. Qed.

Lemma paths_of_ListConnections g from to p :
  Graph_inv g →
  (∃ c, c ∈ ListConnections range g from to ∧ chain_rels c = p) ↔
  simple_path g (id from) p (id to).
Proof.
  intros Hinv. split.
  - intros (c & Hc & <-).
    apply (elem_of_ListConnections range range_perm) in Hc
      as (p & Hp & Hchain); [|done].
    by rewrite (chain_of_rels _ _ _ _ _ Hchain).
  - intros Hp. pose proof Hp as (Hpath & _ & Hmid).
    destruct (simple_path_chain g from to p Hmid) as [c Hc].
    { by eapply directed_path_nonempty. }
    exists c. split; [|by eapply chain_of_rels].
    apply (elem_of_ListConnections range range_perm); eauto.
Qed.

(** ** Listings *)

(** X10.  [ListRelationships] returns a relationship iff it is stored and
    every supplied filter returns true for it; with [FilterRelByFrom],
    [FilterRelByTo] and [FilterRelByLabel] together these are the stored
    relationships with that source, that destination and that label, and
    the order of the filters does not matter. *)
Theorem ListRelationships_all_filters g :
  (∀ filters r,
     r ∈ ListRelationships range g filters ↔
     (∃ k, relationships g !! k = Some r) ∧
     ∀ f, f ∈ filters → f r = true) ∧
  (∀ fromID toID label r,
     r ∈ ListRelationships range g
           [FilterRelByFrom fromID; FilterRelByTo toID; FilterRelByLabel label] ↔
     (∃ k, relationships g !! k = Some r) ∧
     From r = fromID ∧ To r = toID ∧ Label r = label) ∧
  (∀ filters1 filters2 r,
     r ∈ ListRelationships range g (filters1 ++ filters2) ↔
     r ∈ ListRelationships range g (filters2 ++ filters1)).
Proof.
  split_and!.
  - intros filters r.
    by rewrite (elem_of_ListRelationships range range_perm), matchesAll_true.
  - intros fromID toID label r.
    rewrite (elem_of_ListRelationships range range_perm). simpl.
    unfold FilterRelByFrom, FilterRelByTo, FilterRelByLabel.
    destruct (String.eqb_spec (From r) fromID),
      (String.eqb_spec (To r) toID), (String.eqb_spec (Label r) label);
      naive_solver.
  - intros filters1 filters2 r.
    rewrite !(elem_of_ListRelationships range range_perm), !matchesAll_true.
    setoid_rewrite elem_of_app. naive_solver.
Qed.

(** X11.  Without a filter both listings return every entry of their map
    once: they are permutations of the values of the map, so their length
    is the size of the map.  With filters a listing is never longer than
    that. *)
Theorem listings_without_filter g :
  ListNodes range g [] ≡ₚ (map_to_list (nodes g)).*2 ∧
  length (ListNodes range g []) = size (nodes g) ∧
  ListRelationships range g [] ≡ₚ (map_to_list (relationships g)).*2 ∧
  length (ListRelationships range g []) = size (relationships g) ∧
  (∀ where_, (length (ListNodes range g where_) ≤ size (nodes g))%nat) ∧
  (∀ filters,
     (length (ListRelationships range g filters) ≤ size (relationships g))%nat).
Proof.
  assert (ListNodes range g [] = (range Node (nodes g)).*2) as HN.
  { rewrite ListNodes_filter. by apply filter_all. }
  assert (ListRelationships range g [] = (range Relationship (relationships g)).*2)
    as HR.
  { rewrite ListRelationships_filter. by apply filter_all. }
  assert (length (range Node (nodes g)).*2 = size (nodes g)) as HNlen.
  { by rewrite length_fmap, (range_perm _ (nodes g)), length_map_to_list. }
  assert (length (range Relationship (relationships g)).*2
          = size (relationships g)) as HRlen.
  { by rewrite length_fmap, (range_perm _ (relationships g)), length_map_to_list. }
  split_and!.
  - by rewrite HN, (range_perm _ (nodes g)).
  - by rewrite HN.
  - by rewrite HR, (range_perm _ (relationships g)).
  - by rewrite HR.
  - intros where_. rewrite ListNodes_filter, <- HNlen. apply length_filter.
  - intros filters. rewrite ListRelationships_filter, <- HRlen.
    apply length_filter.
Qed.

(** X12.  A new graph holds nothing: both listings and the connection
    finder return the empty list whatever the filters and the nodes, and
    both lookups fail with an error that wraps [ErrNotFound]. *)
Theorem NewGraph_empty :
  (∀ where_, ListNodes range NewGraph where_ = []) ∧
  (∀ filters, ListRelationships range NewGraph filters = []) ∧
  (∀ from to, ListConnections range NewGraph from to = []) ∧
  (∀ k, ∃ err, GetNodeByID NewGraph k = (Node_zero, Some err) ∧
               errors_Is err ErrNotFound = true) ∧
  (∀ k, ∃ err, GetRelationshipByID NewGraph k = (Relationship_zero, Some err) ∧
               errors_Is err ErrNotFound = true).
Proof.
  assert (∀ filters, ListRelationships range NewGraph filters = []) as HR.
  { intros filters. rewrite ListRelationships_filter. simpl.
    by rewrite range_empty. }
  split_and!.
  - intros where_. rewrite ListNodes_filter. simpl. by rewrite range_empty.
  - done.
  - intros from to. rewrite ListConnections_connections_from.
    cbn [connections_from]. by rewrite HR.
  - intros k. eexists. split; [done|]. apply errors_Is_wrap, errors_Is_refl.
  - intros k. eexists. split; [done|]. apply errors_Is_wrap, errors_Is_refl.
Qed.

(** X13.  The labels given to [FilterNodesByLabel] are alternatives, and so
    are the names given to [FilterNodesByName]: listing with the labels of
    two lists returns the nodes that the listing with either list returns,
    and listing with no label or with no name returns nothing. *)
Theorem filter_values_are_alternatives g :
  (∀ labels1 labels2 n,
     n ∈ ListNodes range g [FilterNodesByLabel (labels1 ++ labels2)] ↔
     n ∈ ListNodes range g [FilterNodesByLabel labels1] ∨
     n ∈ ListNodes range g [FilterNodesByLabel labels2]) ∧
  (∀ names1 names2 n,
     n ∈ ListNodes range g [FilterNodesByName (names1 ++ names2)] ↔
     n ∈ ListNodes range g [FilterNodesByName names1] ∨
     n ∈ ListNodes range g [FilterNodesByName names2]) ∧
  ListNodes range g [FilterNodesByLabel []] = [] ∧
  ListNodes range g [FilterNodesByName []] = [].
Proof.
  split_and!.
  - intros labels1 labels2 n. rewrite !(elem_of_ListNodes range range_perm).
    simpl. unfold FilterNodesByLabel. rewrite anyEqual_app.
    destruct (anyEqual (GetLabel n) labels1), (anyEqual (GetLabel n) labels2);
      naive_solver.
  - intros names1 names2 n. rewrite !(elem_of_ListNodes range range_perm).
    simpl. unfold FilterNodesByName. rewrite anyEqual_app.
    destruct (anyEqual (GetName n) names1), (anyEqual (GetName n) names2);
      naive_solver.
  - rewrite ListNodes_filter. by apply filter_none.
  - rewrite ListNodes_filter. by apply filter_none.
Qed.
End FurtherProperties.

(** ** More on the connection finder *)

Section ConnectionProperties.
Variable range : range_order.
Hypothesis range_perm :
  ∀ (A : Type) (m : gmap string A), range A m ≡ₚ map_to_list m.

(** X14.  A chain is never longer than the store allows: between its two
    ends it holds distinct stored nodes, so it has at most two nodes more
    than the store and at most one relationship more than the store has
    nodes. *)
Theorem ListConnections_chain_length g from to c :
  Graph_inv g →
  c ∈ ListConnections range g from to →
  (length (chain_nodes c) ≤ size (nodes g) + 2)%nat ∧
  (length (chain_rels c) ≤ size (nodes g) + 1)%nat ∧
  length (chain_nodes c) = S (length (chain_rels c)).
Proof.
  intros Hinv Hc.
  apply (elem_of_ListConnections range range_perm) in Hc
    as (p & (Hpath & Hnd & Hmid) & Hchain); [|done].
  destruct (chain_of_shape g from to p c Hinv Hpath Hchain)
    as (_ & _ & Hids & inner & Hnodes & Hinner).
  rewrite (chain_of_rels _ _ _ _ _ Hchain).
  assert (length (chain_nodes c) = S (length p)) as Hlen.
  { rewrite <- (length_fmap id (chain_nodes c)), Hids. simpl.
    by rewrite length_fmap. }
  assert (length inner ≤ size (nodes g))%nat as Hbound.
  { rewrite Hnodes in Hids. simpl in Hids. injection Hids as Hids.
    rewrite fmap_app in Hids. rewrite <- Hids in Hnd.
    apply NoDup_cons in Hnd as [_ [Hnd _]%NoDup_app].
    rewrite <- (length_fmap id inner).
    rewrite <- (size_list_to_set (C:=gset string) (id <$> inner)) by done.
    rewrite <- (size_dom (D:=gset string) (nodes g)). apply subseteq_size.
    intros k (n & -> & Hn)%elem_of_list_to_set%list_elem_of_fmap.
    apply elem_of_dom. eapply Forall_forall in Hinner; [|done].
    by eexists. }
  rewrite Hnodes in Hlen. simpl in Hlen. rewrite length_app in Hlen.
  simpl in Hlen. rewrite Hnodes. simpl. rewrite length_app. simpl. lia.
Qed.

(** X15.  [listConnections] never enters an identity of the visited set it
    was given, nor the identity of [from] again; when the identity of [to]
    is in that set it returns no chain. *)
Theorem listConnections_avoids_visited fuel g from to visited chains :
  Graph_inv g →
  size (dom (nodes g) ∖ visited) < fuel →
  listConnections range fuel g from to visited = Some chains →
  (∀ c r, c ∈ chains → r ∈ chain_rels c →
          To r ∉ ({[id from]} ∪ visited : gset string)) ∧
  (id to ∈ visited → chains = []).
Proof.
  intros Hinv Hfuel Hrun.
  rewrite listConnections_connections_from in Hrun by done.
  injection Hrun as <-.
  assert (∀ c, c ∈ connections_from range fuel g from to visited →
    (∀ r, r ∈ chain_rels c → To r ∉ ({[id from]} ∪ visited : gset string)) ∧
    id to ∈ To <$> chain_rels c) as Hall.
  { intros c Hc.
    apply (elem_of_connections_from range range_perm) in Hc
      as (p & Hpath & _ & Hfresh & _ & Hchain); [|done..].
    rewrite (chain_of_rels _ _ _ _ _ Hchain). split.
    - intros r Hr. apply Hfresh. apply list_elem_of_fmap. by exists r.
    - by eapply directed_path_dst_elem. }
  split.
  - intros c r Hc Hr. by apply (Hall c).
  - intros Hto.
    destruct (connections_from range fuel g from to visited) as [|c cs] eqn:E;
      [done|].
    exfalso. destruct (Hall c) as [Havoid Hin]; [by left|].
    apply list_elem_of_fmap in Hin as (r & Heq & Hr).
    apply (Havoid r Hr). rewrite <- Heq. set_solver.
Qed.

(** X16.  Deleting a node prunes the connections that passed through it
    and no other: after [DeleteNode], [ListConnections] returns the chains
    it returned before whose intermediate identities do not include the
    deleted one. *)
Theorem DeleteNode_prunes_connections g nodeID from to c :
  Graph_inv g →
  c ∈ ListConnections range (DeleteNode g nodeID).1 from to ↔
  c ∈ ListConnections range g from to ∧ nodeID ∉ intermediate (chain_rels c).
Proof.
  intros Hinv.
  pose proof (DeleteNode_inv g nodeID Hinv) as Hinv'.
  pose proof (DeleteNode_nodes g nodeID Hinv) as Hnodes.
  pose proof (DeleteNode_relationships g nodeID) as Hrels.
  rewrite !(elem_of_ListConnections range range_perm) by done.
  split.
  - intros (p & Hp & Hchain).
    rewrite (chain_of_rels _ _ _ _ _ Hchain).
    pose proof Hp as (_ & _ & Hmid).
    assert (∀ k, k ∈ intermediate p → k ≠ nodeID) as Hne.
    { intros k Hk ->. eapply Forall_forall in Hmid; [|done].
      rewrite Hnodes, lookup_delete_eq in Hmid. by destruct Hmid. }
    split; [|by intros Hin%Hne].
    exists p. split.
    + eapply simple_path_ext; [| |exact Hp].
      * intros r. unfold stored. by rewrite Hrels.
      * intros k Hk. rewrite Hnodes, lookup_delete_ne; [done|].
        intros Heq. exact (Hne k Hk (eq_sym Heq)).
    + rewrite <- Hchain. symmetry. apply chain_of_ext.
      intros k Hk. rewrite Hnodes. apply lookup_delete_ne.
      intros Heq. exact (Hne k Hk (eq_sym Heq)).
  - intros [(p & Hp & Hchain) Hnotin].
    rewrite (chain_of_rels _ _ _ _ _ Hchain) in Hnotin.
    assert (∀ k, k ∈ intermediate p → nodeID ≠ k) as Hne by (by intros k Hk <-).
    exists p. split.
    + eapply simple_path_ext; [| |exact Hp].
      * intros r. unfold stored. by rewrite Hrels.
      * intros k Hk. rewrite Hnodes, lookup_delete_ne; [done|]. by apply Hne.
    + rewrite <- Hchain. apply chain_of_ext.
      intros k Hk. rewrite Hnodes. apply lookup_delete_ne. by apply Hne.
Qed.

(** X17.  Adding a relationship under an identity that was not in use
    removes no connection: every chain that [ListConnections] returned
    before [AddRelationship] is returned after it, between any two nodes. *)
Theorem AddRelationship_keeps_connections g uid from to label from0 to0 c :
  Graph_inv g →
  (∀ rel, (AddRelationship g uid from to label).2 = (rel, None) →
          relationships g !! ID rel = None) →
  c ∈ ListConnections range g from0 to0 →
  c ∈ ListConnections range (AddRelationship g uid from to label).1 from0 to0.
Proof.
  intros Hinv Hfresh.
  pose proof (AddRelationship_inv g uid from to label Hinv) as Hinv'.
  pose proof (AddRelationship_nodes g uid from to label) as Hnodes.
  rewrite !(elem_of_ListConnections range range_perm) by done.
  intros (p & Hp & Hchain). exists p. split.
  - eapply simple_path_ext; [| |exact Hp].
    + intros r Hr. unfold stored in *. revert Hfresh.
      unfold AddRelationship, GetNodeByID.
      destruct (nodes g !! GetID from) as [fromNode|]; [|done].
      destruct (nodes g !! GetID to) as [toNode|]; [|done]. simpl.
      intros Hfresh. rewrite lookup_insert_ne; [done|].
      intros Heq. specialize (Hfresh _ eq_refl). simpl in Hfresh. congruence.
    + intros k _. by rewrite Hnodes.
  - rewrite <- Hchain. apply chain_of_ext. intros k _. by rewrite Hnodes.
Qed.

(** X18.  Updating the body of a node changes no path: after [UpdateNode]
    the connection finder follows the same sequences of relationships as
    before, and it returns unchanged every chain that does not pass through
    the updated node. *)
Theorem UpdateNode_keeps_paths g nodeID body from to :
  Graph_inv g →
  (∀ p, (∃ c, c ∈ ListConnections range (UpdateNode g nodeID body).1 from to ∧
              chain_rels c = p) ↔
        (∃ c, c ∈ ListConnections range g from to ∧ chain_rels c = p)) ∧
  (∀ c, c ∈ ListConnections range g from to →
        nodeID ∉ intermediate (chain_rels c) →
        c ∈ ListConnections range (UpdateNode g nodeID body).1 from to).
Proof.
  intros Hinv.
  pose proof (UpdateNode_inv g nodeID body Hinv) as Hinv'.
  pose proof (UpdateNode_relationships g nodeID body) as Hrels.
  split.
  - intros p. rewrite !paths_of_ListConnections by done. split.
    + apply simple_path_ext.
      * intros r. unfold stored. by rewrite Hrels.
      * intros k _. by apply UpdateNode_is_Some.
    + apply simple_path_ext.
      * intros r. unfold stored. by rewrite Hrels.
      * intros k _. by apply UpdateNode_is_Some.
  - intros c Hc Hnotin.
    rewrite !(elem_of_ListConnections range range_perm) in * by done.
    destruct Hc as (p & Hp & Hchain).
    rewrite (chain_of_rels _ _ _ _ _ Hchain) in Hnotin.
    exists p. split.
    + eapply simple_path_ext; [| |exact Hp].
      * intros r. unfold stored. by rewrite Hrels.
      * intros k _. by apply UpdateNode_is_Some.
    + rewrite <- Hchain. apply chain_of_ext.
      intros k Hk. apply UpdateNode_nodes_ne; [done|]. by intros ->.
Qed.

(** ** Rendering *)

Variable Node_String : Node → string.
Variable Relationship_String : Relationship → string.

(** X19.  When the empty string is no identity of the store nor of the two
    nodes given, the rendering of a chain that [ListConnections] returns is
    the renderings of its nodes and of its relationships in path order,
    each followed by an arrow but the last node. *)
Theorem ChainLink_String_ListConnections g from to c :
  Graph_inv g →
  nodes g !! "" = None →
  relationships g !! "" = None →
  id from ≠ "" →
  id to ≠ "" →
  c ∈ ListConnections range g from to →
  ChainLink_String Node_String Relationship_String c
  = arrows Node_String Relationship_String (chain_nodes c) (chain_rels c).
Proof.
  intros Hinv Hn0 Hr0 Hfrom Hto Hc.
  apply (elem_of_ListConnections range range_perm) in Hc
    as (p & (Hpath & Hnd & Hmid) & Hchain); [|done].
  destruct (chain_of_shape g from to p c Hinv Hpath Hchain)
    as (_ & Hstored & _ & inner & Hnodes & Hinner).
  apply ChainLink_String_arrows.
  - rewrite Hnodes. constructor; [done|]. apply Forall_app. split.
    + eapply Forall_impl; [exact Hinner|]. intros n Hn Hid. simpl in Hn.
      rewrite Hid in Hn. congruence.
    + by constructor.
  - eapply Forall_impl; [exact Hstored|]. intros r Hr Hid. unfold stored in Hr.
    rewrite Hid in Hr. congruence.
  - by rewrite (chain_of_last_rel _ _ _ _ _ Hchain).
Qed.
End ConnectionProperties.

(** ** The further properties at work on the example stores *)

Lemma ListConnections_example_graph_eq :
  ListConnections range_map_to_list example_graph bobita smaug
  = [chain_through_azor; direct_chain].
Proof. by vm_compute. Qed.

Lemma ListConnections_friends_graph_eq :
  ListConnections range_map_to_list friends_graph bobita azor = [friends_chain].
Proof. by vm_compute. Qed.

(** The strings that [Test_Graph_ListConnections] expects. *)
Example ChainLink_String_example_graph :
  ChainLink_String Asset_String rel_String <$>
    ListConnections range_map_to_list example_graph bobita smaug
  = ["{Asset:Bobita}->{rel:Bobita-friends-Azor}->{Asset:Azor}->{rel:Azor-enemies-Smaug}->{Asset:Smaug}";
     "{Asset:Bobita}->{rel:Bobita-enemies-Smaug}->{Asset:Smaug}"].
Proof. by vm_compute. Qed.

Lemma GetRelationshipByID_found_or_NotFound_witness :
  relationships friends_graph !! "r1" = Some bobita_friends_azor ∧
  GetRelationshipByID friends_graph "r1" = (bobita_friends_azor, None).
Proof.
  assert (relationships friends_graph !! "r1" = Some bobita_friends_azor) as Hlook
    by (vm_compute; reflexivity).
  split; [exact Hlook|].
  exact (proj1 (GetRelationshipByID_found_or_NotFound friends_graph "r1") _ Hlook).
Defined.

Lemma GetNodeByID_found_or_NotFound_witness :
  nodes friends_graph !! "n2" = Some azor ∧
  GetNodeByID friends_graph "n2" = (azor, None).
Proof.
  assert (nodes friends_graph !! "n2" = Some azor) as Hlook
    by (vm_compute; reflexivity).
  split; [exact Hlook|].
  exact (proj1 (GetNodeByID_found_or_NotFound friends_graph "n2") _ Hlook).
Defined.

Lemma store_keeps_identities_witness :
  reachable example_graph ∧ Graph_inv example_graph.
Proof.
  split; [exact example_graph_reachable|].
  exact (proj2 (proj2 store_keeps_identities) _ example_graph_reachable).
Defined.

Lemma relationships_never_removed_witness :
  is_Some (relationships friends_graph !! "r1") ∧
  relationships (DeleteNode friends_graph "n2").1 = relationships friends_graph ∧
  is_Some (relationships
             (AddRelationship friends_graph "r1" azor bobita "rivals").1 !! "r1").
Proof.
  assert (is_Some (relationships friends_graph !! "r1")) as Hlook
    by (exists bobita_friends_azor; vm_compute; reflexivity).
  split; [exact Hlook|].
  destruct (relationships_never_removed friends_graph "r1" Hlook)
    as (_ & _ & Hdel & Hadd).
  split; [exact (Hdel "n2")|].
  exact (proj1 (Hadd "r1" azor bobita "rivals")).
Defined.

Lemma InsertNode_frame_witness :
  nodes (InsertNode puppies_graph "n3" "Smaug" "dragon" []).1 !! "n3"
  = Some (InsertNode puppies_graph "n3" "Smaug" "dragon" []).2.
Proof.
  exact (proj1 (InsertNode_frame puppies_graph "n3" "Smaug" "dragon" [])).
Defined.

Lemma InsertNode_DeleteNode_witness :
  nodes puppies_graph !! "n3" = None ∧
  DeleteNode (InsertNode puppies_graph "n3" "Smaug" "dragon" []).1 "n3"
  = (puppies_graph, None).
Proof.
  assert (nodes puppies_graph !! "n3" = None) as Hfresh
    by (vm_compute; reflexivity).
  split; [exact Hfresh|].
  exact (InsertNode_DeleteNode puppies_graph "n3" "Smaug" "dragon" [] Hfresh).
Defined.

Lemma DeleteNode_then_NotFound_witness :
  Graph_inv friends_graph ∧
  nodes friends_graph !! "n2" = Some azor ∧
  S (size (nodes dangling_graph)) = size (nodes friends_graph) ∧
  ∃ err, GetNodeByID dangling_graph "n2" = (Node_zero, Some err) ∧
         errors_Is err ErrNotFound = true.
Proof.
  assert (Graph_inv friends_graph) as Hinv
    by exact (reachable_inv _ friends_graph_reachable).
  assert (nodes friends_graph !! "n2" = Some azor) as Hlook
    by (vm_compute; reflexivity).
  split; [exact Hinv|]. split; [exact Hlook|].
  destruct (DeleteNode_then_NotFound friends_graph "n2" azor [] Hinv Hlook)
    as (Hsize & Hget & _).
  split; [exact Hsize|exact Hget].
Defined.

Lemma UpdateNode_twice_witness :
  Graph_inv example_graph ∧
  nodes example_graph !! "n1" = Some bobita ∧
  UpdateNode (UpdateNode example_graph "n1" [x31]).1 "n1" [x32]
  = UpdateNode example_graph "n1" [x32] ∧
  (UpdateNode example_graph "n1" (Body bobita)).1 = example_graph.
Proof.
  assert (Graph_inv example_graph) as Hinv
    by exact (reachable_inv _ example_graph_reachable).
  assert (nodes example_graph !! "n1" = Some bobita) as Hlook
    by (vm_compute; reflexivity).
  split; [exact Hinv|]. split; [exact Hlook|].
  destruct (UpdateNode_twice example_graph "n1" bobita [x31] [x32] Hinv Hlook)
    as (H1 & H2 & _).
  split; [exact H1|exact H2].
Defined.

Lemma name_and_label_fixed_witness :
  Graph_inv example_graph ∧
  nodes example_graph !! "n1" = Some bobita ∧
  ∀ n', nodes (UpdateNode example_graph "n1" [x31]).1 !! "n1" = Some n' →
        id n' = id bobita ∧ name n' = name bobita ∧ label n' = label bobita.
Proof.
  assert (Graph_inv example_graph) as Hinv
    by exact (reachable_inv _ example_graph_reachable).
  assert (nodes example_graph !! "n1" = Some bobita) as Hlook
    by (vm_compute; reflexivity).
  split; [exact Hinv|]. split; [exact Hlook|].
  intros n'.
  exact (proj1 (name_and_label_fixed example_graph "n1" bobita n' Hinv Hlook)
           "n1" [x31]).
Defined.

Lemma ListRelationships_all_filters_witness :
  (∀ (A : Type) (m : gmap string A), range_map_to_list A m ≡ₚ map_to_list m) ∧
  ∀ r,
    r ∈ ListRelationships range_map_to_list example_graph
          [FilterRelByFrom "n2"; FilterRelByTo "n1"; FilterRelByLabel "friends"] ↔
    (∃ k, relationships example_graph !! k = Some r) ∧
    From r = "n2" ∧ To r = "n1" ∧ Label r = "friends".
Proof.
  split; [exact range_map_to_list_perm|].
  destruct (ListRelationships_all_filters range_map_to_list
              range_map_to_list_perm example_graph) as (_ & H & _).
  exact (H "n2" "n1" "friends").
Defined.

Lemma listings_without_filter_witness :
  (∀ (A : Type) (m : gmap string A), range_map_to_list A m ≡ₚ map_to_list m) ∧
  length (ListNodes range_map_to_list example_graph []) = size (nodes example_graph) ∧
  length (ListRelationships range_map_to_list example_graph [])
  = size (relationships example_graph).
Proof.
  split; [exact range_map_to_list_perm|].
  destruct (listings_without_filter range_map_to_list range_map_to_list_perm
              example_graph) as (_ & H1 & _ & H2 & _).
  split; [exact H1|exact H2].
Defined.

Lemma NewGraph_empty_witness :
  (∀ (A : Type) (m : gmap string A), range_map_to_list A m ≡ₚ map_to_list m) ∧
  ListConnections range_map_to_list NewGraph bobita smaug = [].
Proof.
  split; [exact range_map_to_list_perm|].
  destruct (NewGraph_empty range_map_to_list range_map_to_list_perm)
    as (_ & _ & H & _).
  exact (H bobita smaug).
Defined.

Lemma filter_values_are_alternatives_witness :
  (∀ (A : Type) (m : gmap string A), range_map_to_list A m ≡ₚ map_to_list m) ∧
  ∀ n,
    n ∈ ListNodes range_map_to_list example_graph
          [FilterNodesByLabel (["puppy"] ++ ["dragon"])] ↔
    n ∈ ListNodes range_map_to_list example_graph [FilterNodesByLabel ["puppy"]] ∨
    n ∈ ListNodes range_map_to_list example_graph [FilterNodesByLabel ["dragon"]].
Proof.
  split; [exact range_map_to_list_perm|].
  destruct (filter_values_are_alternatives range_map_to_list
              range_map_to_list_perm example_graph) as (H & _).
  exact (H ["puppy"] ["dragon"]).
Defined.

Lemma ListConnections_chain_length_witness :
  Graph_inv example_graph ∧
  chain_through_azor ∈ ListConnections range_map_to_list example_graph bobita smaug ∧
  (length (chain_nodes chain_through_azor) ≤ size (nodes example_graph) + 2)%nat.
Proof.
  assert (Graph_inv example_graph) as Hinv
    by exact (reachable_inv _ example_graph_reachable).
  assert (chain_through_azor
          ∈ ListConnections range_map_to_list example_graph bobita smaug) as Hin
    by (rewrite ListConnections_example_graph_eq; left).
  split; [exact Hinv|]. split; [exact Hin|].
  exact (proj1 (ListConnections_chain_length range_map_to_list
                  range_map_to_list_perm example_graph bobita smaug
                  chain_through_azor Hinv Hin)).
Defined.

Lemma listConnections_avoids_visited_witness :
  Graph_inv example_graph ∧
  size (dom (nodes example_graph) ∖ ({["n2"]} : gset string)) < 3 ∧
  listConnections range_map_to_list 3 example_graph bobita smaug {["n2"]}
  = Some [direct_chain] ∧
  ∀ c r, c ∈ [direct_chain] → r ∈ chain_rels c →
         To r ∉ ({[id bobita]} ∪ {["n2"]} : gset string).
Proof.
  assert (Graph_inv example_graph) as Hinv
    by exact (reachable_inv _ example_graph_reachable).
  assert (size (dom (nodes example_graph) ∖ ({["n2"]} : gset string)) < 3)
    as Hfuel by (vm_compute; lia).
  assert (listConnections range_map_to_list 3 example_graph bobita smaug {["n2"]}
          = Some [direct_chain]) as Hrun by (vm_compute; reflexivity).
  split; [exact Hinv|]. split; [exact Hfuel|]. split; [exact Hrun|].
  exact (proj1 (listConnections_avoids_visited range_map_to_list
                  range_map_to_list_perm 3 example_graph bobita smaug {["n2"]}
                  [direct_chain] Hinv Hfuel Hrun)).
Defined.

Lemma DeleteNode_prunes_connections_witness :
  Graph_inv example_graph ∧
  ∀ c,
    c ∈ ListConnections range_map_to_list (DeleteNode example_graph "n2").1
          bobita smaug ↔
    c ∈ ListConnections range_map_to_list example_graph bobita smaug ∧
    "n2" ∉ intermediate (chain_rels c).
Proof.
  assert (Graph_inv example_graph) as Hinv
    by exact (reachable_inv _ example_graph_reachable).
  split; [exact Hinv|]. intros c.
  exact (DeleteNode_prunes_connections range_map_to_list range_map_to_list_perm
           example_graph "n2" bobita smaug c Hinv).
Defined.

Lemma AddRelationship_keeps_connections_witness :
  Graph_inv friends_graph ∧
  friends_chain ∈ ListConnections range_map_to_list friends_graph bobita azor ∧
  friends_chain
  ∈ ListConnections range_map_to_list
      (AddRelationship friends_graph "r2" azor bobita "friends").1 bobita azor.
Proof.
  assert (Graph_inv friends_graph) as Hinv
    by exact (reachable_inv _ friends_graph_reachable).
  assert (friends_chain
          ∈ ListConnections range_map_to_list friends_graph bobita azor) as Hin
    by (rewrite ListConnections_friends_graph_eq; left).
  assert (∀ rel,
    (AddRelationship friends_graph "r2" azor bobita "friends").2 = (rel, None) →
    relationships friends_graph !! ID rel = None) as Hfresh.
  { intros rel Hrel. vm_compute in Hrel. injection Hrel as <-.
    vm_compute. reflexivity. }
  split; [exact Hinv|]. split; [exact Hin|].
  exact (AddRelationship_keeps_connections range_map_to_list
           range_map_to_list_perm friends_graph "r2" azor bobita "friends"
           bobita azor friends_chain Hinv Hfresh Hin).
Defined.

Lemma UpdateNode_keeps_paths_witness :
  Graph_inv example_graph ∧
  ∀ p,
    (∃ c, c ∈ ListConnections range_map_to_list
                (UpdateNode example_graph "n2" [x31]).1 bobita smaug ∧
          chain_rels c = p) ↔
    (∃ c, c ∈ ListConnections range_map_to_list example_graph bobita smaug ∧
          chain_rels c = p).
Proof.
  assert (Graph_inv example_graph) as Hinv
    by exact (reachable_inv _ example_graph_reachable).
  split; [exact Hinv|].
  exact (proj1 (UpdateNode_keeps_paths range_map_to_list range_map_to_list_perm
                  example_graph "n2" [x31] bobita smaug Hinv)).
Defined.

Lemma ChainLink_String_ListConnections_witness :
  Graph_inv example_graph ∧
  nodes example_graph !! "" = None ∧
  relationships example_graph !! "" = None ∧
  chain_through_azor ∈ ListConnections range_map_to_list example_graph bobita smaug ∧
  ChainLink_String Asset_String rel_String chain_through_azor
  = arrows Asset_String rel_String (chain_nodes chain_through_azor)
      (chain_rels chain_through_azor).
Proof.
  assert (Graph_inv example_graph) as Hinv
    by exact (reachable_inv _ example_graph_reachable).
  assert (nodes example_graph !! "" = None) as Hn by (vm_compute; reflexivity).
  assert (relationships example_graph !! "" = None) as Hr
    by (vm_compute; reflexivity).
  assert (id bobita ≠ "") as Hfrom by discriminate.
  assert (id smaug ≠ "") as Hto by discriminate.
  assert (chain_through_azor
          ∈ ListConnections range_map_to_list example_graph bobita smaug) as Hin
    by (rewrite ListConnections_example_graph_eq; left).
  split; [exact Hinv|]. split; [exact Hn|]. split; [exact Hr|].
  split; [exact Hin|].
  exact (ChainLink_String_ListConnections range_map_to_list
           range_map_to_list_perm Asset_String rel_String example_graph
           bobita smaug chain_through_azor Hinv Hn Hr Hfrom Hto Hin).
Defined.
